(** * dash-radio-group: the roving-tabindex radio group

    A shallow embedding of [src/elements/dash-radio-group/dash-radio-group.js].

    The [RadioGroup] custom element manipulates the subtree of the document
    rooted at itself: it reads and writes three attributes of its descendants
    ([role], [aria-checked], [tabindex]), walks siblings, asks for focus, and
    may fail with a [TypeError] when it dereferences the [null] answer of a
    query.  The embedding therefore has

    - an element tree with the attributes the code touches,
    - node references that keep their identity under attribute writes,
    - a state-and-exception monad for the methods, whose state carries the
      tree, the registered listeners and the trace of host calls.  *)

From Stdlib Require Import String ZArith List Bool Arith Lia.
Import ListNotations.

Local Open Scope string_scope.
Local Open Scope list_scope.
Local Open Scope nat_scope.

(* ================================================================== *)
(** ** The element tree *)

(** The attributes of one element that the radio group reads or writes.
    [tabindex] holds the integer the [tabIndex] property reflects. *)
Record Attrs : Type := mkAttrs {
  tagName : string;
  role : option string;
  ariaChecked : option string;
  tabindex : option Z
}.

#[warnings="-register-all"]
Inductive Element : Type :=
| Elem (a : Attrs) (kids : list Element).

Definition attrsOf (e : Element) : Attrs :=
  match e with Elem a _ => a end.

Definition childrenOf (e : Element) : list Element :=
  match e with Elem _ kids => kids end.

(** A reference to a node of the subtree: the child indices leading to it
    from the host element, which is [[]].  Attribute writes never move a
    node, so a reference denotes the same node throughout. *)
Definition NodeRef : Type := list nat.

Definition nodeEqb (p q : NodeRef) : bool :=
  if list_eq_dec Nat.eq_dec p q then true else false.

Fixpoint nodeAt (e : Element) (p : NodeRef) : option Element :=
  match p with
  | [] => Some e
  | i :: r =>
      match nth_error (childrenOf e) i with
      | Some k => nodeAt k r
      | None => None
      end
  end.

Definition attrsAt (e : Element) (p : NodeRef) : option Attrs :=
  option_map attrsOf (nodeAt e p).

Fixpoint updNth {A} (i : nat) (g : A -> A) (l : list A) {struct l} : list A :=
  match l, i with
  | [], _ => []
  | x :: r, 0 => g x :: r
  | x :: r, S j => x :: updNth j g r
  end.

(** Writing attributes of the node at [p]. *)
Fixpoint updateAt (f : Attrs -> Attrs) (p : NodeRef) (e : Element) : Element :=
  match p with
  | [] => Elem (f (attrsOf e)) (childrenOf e)
  | i :: r => Elem (attrsOf e) (updNth i (updateAt f r) (childrenOf e))
  end.

(** Document order.  [number i ds] prefixes the reference lists of
    consecutive children, the first of which has index [i]. *)
Fixpoint number (i : nat) (ds : list (list NodeRef)) : list NodeRef :=
  match ds with
  | [] => []
  | d :: ds' => ([i] :: map (cons i) d) ++ number (S i) ds'
  end.

(** The proper descendants of an element, in document (pre)order: what
    [querySelectorAll] ranges over. *)
Fixpoint descendants (e : Element) : list NodeRef :=
  match e with
  | Elem _ kids => number 0 (map descendants kids)
  end.

Definition childCount (d : Element) (p : NodeRef) : nat :=
  match nodeAt d p with
  | Some e => List.length (childrenOf e)
  | None => 0
  end.

(** The reference of the parent and the index among its children. *)
Definition parentRef (n : NodeRef) : NodeRef := removelast n.
Definition indexOf (n : NodeRef) : nat := last n 0.
Definition childRef (par : NodeRef) (i : nat) : NodeRef := par ++ [i].

(* ================================================================== *)
(** ** Attribute tests and selectors *)

Definition attrIs (v : option string) (s : string) : bool :=
  match v with
  | Some x => String.eqb x s
  | None => false
  end.

(** [n.getAttribute('role') === 'radio'], the selector [[role="radio"]]. *)
Definition isRadio (d : Element) (n : NodeRef) : bool :=
  match attrsAt d n with
  | Some a => attrIs (role a) "radio"
  | None => false
  end.

(** The selector [[aria-checked="true"]]: the flag [isSelected]. *)
Definition isSelected (d : Element) (n : NodeRef) : bool :=
  match attrsAt d n with
  | Some a => attrIs (ariaChecked a) "true"
  | None => false
  end.

(** [tabindex] is 0: the flag [isFocusable]. *)
Definition isFocusable (d : Element) (n : NodeRef) : bool :=
  match attrsAt d n with
  | Some a => match tabindex a with Some z => Z.eqb z 0%Z | None => false end
  | None => false
  end.

Definition sameTag (d : Element) (p q : NodeRef) : bool :=
  match attrsAt d p, attrsAt d q with
  | Some a, Some b => String.eqb (tagName a) (tagName b)
  | _, _ => false
  end.

(** [:first-of-type]: no earlier sibling has the same element type. *)
Definition firstOfType (d : Element) (n : NodeRef) : bool :=
  forallb (fun j => negb (sameTag d (childRef (parentRef n) j) n))
          (seq 0 (indexOf n)).

(** [:last-of-type]: no later sibling has the same element type. *)
Definition lastOfType (d : Element) (n : NodeRef) : bool :=
  forallb (fun j => negb (sameTag d (childRef (parentRef n) j) n))
          (seq (S (indexOf n)) (childCount d (parentRef n) - S (indexOf n))).

Definition querySelectorAll (sel : Element -> NodeRef -> bool) (d : Element)
  : list NodeRef :=
  filter (sel d) (descendants d).

Definition querySelector (sel : Element -> NodeRef -> bool) (d : Element)
  : option NodeRef :=
  find (sel d) (descendants d).

(** The candidate items of the group, in document order. *)
Definition items (d : Element) : list NodeRef := querySelectorAll isRadio d.

Definition selectedItems (d : Element) : list NodeRef :=
  filter (isSelected d) (items d).

Definition focusableItems (d : Element) : list NodeRef :=
  filter (isFocusable d) (items d).

(** [previousElementSibling] and [nextElementSibling].  The siblings of the
    host element lie outside the subtree; the group never asks for them. *)
Definition previousElementSibling (d : Element) (n : NodeRef) : option NodeRef :=
  match n with
  | [] => None
  | _ => match indexOf n with
         | 0 => None
         | S j => Some (childRef (parentRef n) j)
         end
  end.

Definition nextElementSibling (d : Element) (n : NodeRef) : option NodeRef :=
  match n with
  | [] => None
  | _ => let m := childRef (parentRef n) (S (indexOf n)) in
         match nodeAt d m with
         | Some _ => Some m
         | None => None
         end
  end.

(* ================================================================== *)
(** ** State, host calls and the method monad *)

Inductive Effect : Type :=
| SetRole (n : NodeRef) (v : string)
| SetAriaChecked (n : NodeRef) (v : string)
| SetTabindex (n : NodeRef) (v : Z)
| Focus (n : NodeRef)
| PreventDefault
| AddEventListener (type : string)
| RemoveEventListener (type : string).

Record State : Type := mkState {
  dom : Element;
  keydownListener : bool;
  clickListener : bool;
  trace : list Effect
}.

Inductive Error : Type := TypeError.

Inductive Completion (A : Type) : Type :=
| Normal (a : A)
| Throw (e : Error).
Arguments Normal {A} a.
Arguments Throw {A} e.

Definition M (A : Type) : Type := State -> Completion A * State.

Definition ret {A} (a : A) : M A := fun s => (Normal a, s).

Definition bind {A B} (m : M A) (k : A -> M B) : M B :=
  fun s =>
    match m s with
    | (Normal a, s') => k a s'
    | (Throw e, s') => (Throw e, s')
    end.

Declare Scope js_scope.
Delimit Scope js_scope with js.
Notation "x <- m ;; k" := (bind m (fun x => k))
  (at level 61, m at next level, right associativity) : js_scope.
Notation "m ;; k" := (bind m (fun _ => k))
  (at level 61, right associativity) : js_scope.
Local Open Scope js_scope.

Definition throw {A} (e : Error) : M A := fun s => (Throw e, s).

(** Reading a property of [null] throws. *)
Definition deref (n : option NodeRef) : M NodeRef :=
  match n with
  | Some r => ret r
  | None => throw TypeError
  end.

Definition gets {A} (f : Element -> A) : M A := fun s => (Normal (f (dom s)), s).

Definition write (f : Attrs -> Attrs) (n : NodeRef) (ev : Effect) : M unit :=
  fun s => (Normal tt,
            mkState (updateAt f n (dom s)) (keydownListener s) (clickListener s)
                    (trace s ++ [ev])).

Definition withRole (v : string) (a : Attrs) : Attrs :=
  mkAttrs (tagName a) (Some v) (ariaChecked a) (tabindex a).
Definition withAriaChecked (v : string) (a : Attrs) : Attrs :=
  mkAttrs (tagName a) (role a) (Some v) (tabindex a).
Definition withTabindex (v : Z) (a : Attrs) : Attrs :=
  mkAttrs (tagName a) (role a) (ariaChecked a) (Some v).

Definition setRole (n : NodeRef) (v : string) : M unit :=
  write (withRole v) n (SetRole n v).
Definition setAriaChecked (n : NodeRef) (v : string) : M unit :=
  write (withAriaChecked v) n (SetAriaChecked n v).
Definition setTabindex (n : NodeRef) (v : Z) : M unit :=
  write (withTabindex v) n (SetTabindex n v).

Definition focus (n : NodeRef) : M unit :=
  fun s => (Normal tt,
            mkState (dom s) (keydownListener s) (clickListener s)
                    (trace s ++ [Focus n])).

Definition preventDefault : M unit :=
  fun s => (Normal tt,
            mkState (dom s) (keydownListener s) (clickListener s)
                    (trace s ++ [PreventDefault])).

(** [addEventListener] with the same type and callback twice keeps one
    registration, so a flag per listener is the whole listener state. *)
Definition addEventListener (type : string) : M unit :=
  fun s => (Normal tt,
            mkState (dom s)
                    (keydownListener s || String.eqb type "keydown")
                    (clickListener s || String.eqb type "click")
                    (trace s ++ [AddEventListener type])).

Definition removeEventListener (type : string) : M unit :=
  fun s => (Normal tt,
            mkState (dom s)
                    (keydownListener s && negb (String.eqb type "keydown"))
                    (clickListener s && negb (String.eqb type "click"))
                    (trace s ++ [RemoveEventListener type])).

Fixpoint forEach {A} (l : list A) (body : A -> M unit) : M unit :=
  match l with
  | [] => ret tt
  | x :: r => body x ;; forEach r body
  end.

(** JavaScript's [a || b] and [a === b] on possibly-null references. *)
Definition orElse (a b : option NodeRef) : option NodeRef :=
  match a with
  | Some _ => a
  | None => b
  end.

Definition sameNode (a b : option NodeRef) : bool :=
  match a, b with
  | Some p, Some q => nodeEqb p q
  | None, None => true
  | _, _ => false
  end.

(* ================================================================== *)
(** ** The [RadioGroup] element *)

Module KEYCODE.
Definition DOWN : Z := 40.
Definition LEFT : Z := 37.
Definition RIGHT : Z := 39.
Definition SPACE : Z := 32.
Definition UP : Z := 38.
End KEYCODE.

(** The getters. *)
Definition checkedRadioButton : M (option NodeRef) :=
  gets (querySelector isSelected).

Definition firstRadioButton : M (option NodeRef) :=
  gets (querySelector (fun d n => isRadio d n && firstOfType d n)).

Definition lastRadioButton : M (option NodeRef) :=
  gets (querySelector (fun d n => isRadio d n && lastOfType d n)).

(** The loop of [_prevRadioButton].  [i] is one more than the index of
    [prev] among the children of [par]; [i = 0] is [prev === null]. *)
Fixpoint prevLoop (d : Element) (par : NodeRef) (i : nat) : option NodeRef :=
  match i with
  | 0 => None
  | S j =>
      if isRadio d (childRef par j) then Some (childRef par j)
      else prevLoop d par j
  end.

(** The loop of [_nextRadioButton].  [next] is the child [j] of [par] and
    [remaining] counts the children from [j] on; [remaining = 0] is
    [next === null]. *)
Fixpoint nextLoop (d : Element) (par : NodeRef) (j remaining : nat)
  : option NodeRef :=
  match remaining with
  | 0 => None
  | S r =>
      if isRadio d (childRef par j) then Some (childRef par j)
      else nextLoop d par (S j) r
  end.

(** The walks start from the sibling next to [n]; as for the sibling
    accessors, [n] is never the host. *)
Definition prevRadioOf (d : Element) (n : NodeRef) : option NodeRef :=
  match n with
  | [] => None
  | _ => prevLoop d (parentRef n) (indexOf n)
  end.

Definition nextRadioOf (d : Element) (n : NodeRef) : option NodeRef :=
  match n with
  | [] => None
  | _ => nextLoop d (parentRef n) (S (indexOf n))
                  (childCount d (parentRef n) - S (indexOf n))
  end.

Definition _prevRadioButton (node : option NodeRef) : M (option NodeRef) :=
  n <- deref node ;;
  gets (fun d => prevRadioOf d n).

Definition _nextRadioButton (node : option NodeRef) : M (option NodeRef) :=
  n <- deref node ;;
  gets (fun d => nextRadioOf d n).

Definition _uncheckAll : M unit :=
  radioButtons <- gets (querySelectorAll isRadio) ;;
  forEach radioButtons (fun btn =>
    setAriaChecked btn "false" ;;
    setTabindex btn (-1)).

Definition _checkNode (node : option NodeRef) : M unit :=
  n <- deref node ;;
  setAriaChecked n "true" ;;
  setTabindex n 0.

Definition _focusNode (node : option NodeRef) : M unit :=
  n <- deref node ;;
  focus n.

Definition _setChecked (node : option NodeRef) : M unit :=
  _uncheckAll ;;
  _checkNode node ;;
  _focusNode node.

(** [this.checkedRadioButton || this.firstRadioButton] *)
Definition checkedOrFirst : M (option NodeRef) :=
  checked <- checkedRadioButton ;;
  match checked with
  | Some _ => ret checked
  | None => firstRadioButton
  end.

Definition _setCheckedToPrevButton : M unit :=
  checkedButton <- checkedOrFirst ;;
  first <- firstRadioButton ;;
  if sameNode checkedButton first then
    last <- lastRadioButton ;;
    _setChecked last
  else
    prev <- _prevRadioButton checkedButton ;;
    _setChecked prev.

Definition _setCheckedToNextButton : M unit :=
  checkedButton <- checkedOrFirst ;;
  last <- lastRadioButton ;;
  if sameNode checkedButton last then
    first <- firstRadioButton ;;
    _setChecked first
  else
    next <- _nextRadioButton checkedButton ;;
    _setChecked next.

(** [_onKeyDown(e)], as a function of [e.keyCode]. *)
Definition _onKeyDown (keyCode : Z) : M unit :=
  if (keyCode =? KEYCODE.UP)%Z || (keyCode =? KEYCODE.LEFT)%Z then
    preventDefault ;;
    _setCheckedToPrevButton
  else if (keyCode =? KEYCODE.DOWN)%Z || (keyCode =? KEYCODE.RIGHT)%Z then
    preventDefault ;;
    _setCheckedToNextButton
  else
    ret tt.

(** [_onClick(e)], as a function of [e.target]. *)
Definition _onClick (target : NodeRef) : M unit :=
  isRadioTarget <- gets (fun d => isRadio d target) ;;
  if isRadioTarget then _setChecked (Some target) else ret tt.

Definition connectedCallback : M unit :=
  setRole [] "radiogroup" ;;
  firstCheckedButton <- checkedRadioButton ;;
  match firstCheckedButton with
  | Some _ =>
      _uncheckAll ;;
      _checkNode firstCheckedButton
  | None =>
      first <- gets (querySelector isRadio) ;;
      n <- deref first ;;
      setTabindex n 0
  end ;;
  addEventListener "keydown" ;;
  addEventListener "click".

Definition disconnectedCallback : M unit :=
  removeEventListener "keydown" ;;
  removeEventListener "click".

(** The events the group listens to.  An exception escaping a handler is
    reported by the host; the writes made before it stay, and the next event
    is handled in the state it left. *)
Inductive Event : Type :=
| KeyDown (keyCode : Z)
| Click (target : NodeRef).

Definition handle (ev : Event) : M unit :=
  match ev with
  | KeyDown k => _onKeyDown k
  | Click t => _onClick t
  end.

Definition exec {A} (m : M A) (s : State) : State := snd (m s).
Definition outcome {A} (m : M A) (s : State) : Completion A := fst (m s).

Fixpoint run (evs : list Event) (s : State) : State :=
  match evs with
  | [] => s
  | ev :: r => run r (exec (handle ev) s)
  end.

(** An event that reaches [_setChecked]: an arrow key, or a click whose
    target has role [radio]. *)
Definition isArrow (k : Z) : bool :=
  (k =? KEYCODE.UP)%Z || (k =? KEYCODE.LEFT)%Z
  || (k =? KEYCODE.DOWN)%Z || (k =? KEYCODE.RIGHT)%Z.

Definition selects (s : State) (ev : Event) : bool :=
  match ev with
  | KeyDown k => isArrow k
  | Click t => isRadio (dom s) t
  end.

(** A state as the page loader leaves it. *)
Definition initial (d : Element) : State := mkState d false false [].

(* ================================================================== *)
(** ** Notions used in the statements and proofs *)

(** [n] is one of the candidate items of [d]. *)
Definition isItem (d : Element) (n : NodeRef) : bool :=
  existsb (nodeEqb n) (items d).

(** What [_uncheckAll] writes on a button, and [_checkNode] on its node. *)
Definition cleared (a : Attrs) : Attrs :=
  withTabindex (-1) (withAriaChecked "false" a).

Definition checked (a : Attrs) : Attrs :=
  withTabindex 0 (withAriaChecked "true" a).

Definition clearNode (d : Element) (n : NodeRef) : Element :=
  updateAt (withTabindex (-1)) n (updateAt (withAriaChecked "false") n d).

Definition checkNode (n : NodeRef) (d : Element) : Element :=
  updateAt (withTabindex 0) n (updateAt (withAriaChecked "true") n d).

(** The tree after [_uncheckAll]: the buttons found by the query, cleared
    one after the other. *)
Definition uncheckAllDom (d : Element) : Element :=
  fold_left clearNode (items d) d.

(** The tree after [this.setAttribute('role', 'radiogroup')]. *)
Definition hostDom (d : Element) : Element :=
  updateAt (withRole "radiogroup") [] d.

(** The host calls of clearing and of checking one node. *)
Definition clearTrace (n : NodeRef) : list Effect :=
  [SetAriaChecked n "false"; SetTabindex n (-1)].

Definition checkTrace (n : NodeRef) : list Effect :=
  [SetAriaChecked n "true"; SetTabindex n 0].

(** The focus requests recorded in a trace, oldest first. *)
Fixpoint focusRequests (t : list Effect) : list NodeRef :=
  match t with
  | [] => []
  | Focus n :: r => n :: focusRequests r
  | _ :: r => focusRequests r
  end.

(** The nearest candidate sibling after (before) index [i] under [par]. *)
Definition nearestAfter (d : Element) (par : NodeRef) (i : nat) (m : NodeRef)
  : Prop :=
  exists j, m = childRef par j /\ i < j /\ isRadio d m = true /\
            forall k, i < k < j -> isRadio d (childRef par k) = false.

Definition nearestBefore (d : Element) (par : NodeRef) (i : nat) (m : NodeRef)
  : Prop :=
  exists j, m = childRef par j /\ j < i /\ isRadio d m = true /\
            forall k, j < k < i -> isRadio d (childRef par k) = false.

(** Only candidate items carry [aria-checked="true"]. *)
Definition onlyItemsChecked (d : Element) : Prop :=
  forall p, In p (descendants d) -> isSelected d p = true -> isRadio d p = true.

(** [this.checkedRadioButton || this.firstRadioButton], as a query. *)
Definition currentItem (d : Element) : option NodeRef :=
  orElse (querySelector isSelected d)
         (querySelector (fun d n => isRadio d n && firstOfType d n) d).

(** The layout the element is written for: the candidate items are children
    of the host, and a child of the host has role [radio] exactly when its
    element type is [T]. *)
Definition uniformGroup (T : string) (d : Element) : bool :=
  forallb (fun p => length p =? 1) (items d)
  && forallb (fun k => Bool.eqb (attrIs (role (attrsOf k)) "radio")
                                (String.eqb (tagName (attrsOf k)) T))
             (childrenOf d).

Definition single (i : nat) : NodeRef := [i].

(* ================================================================== *)
(** ** Sample documents *)

Definition button (checked : option string) (tab : option Z) : Element :=
  Elem (mkAttrs "dash-radio-button" (Some "radio") checked tab) [].

Definition plain (tag : string) (kids : list Element) : Element :=
  Elem (mkAttrs tag None None None) kids.

Definition group (kids : list Element) : Element :=
  Elem (mkAttrs "dash-radio-group" None None None) kids.

(** Three buttons as [RadioButton.connectedCallback] leaves them. *)
Definition abc : Element :=
  group [button (Some "false") (Some (-1)%Z);
         button (Some "false") (Some (-1)%Z);
         button (Some "false") (Some (-1)%Z)].

(** Three buttons, the second one checked. *)
Definition secondChecked : Element :=
  group [button (Some "false") (Some (-1)%Z);
         button (Some "true") (Some 0%Z);
         button (Some "false") (Some (-1)%Z)].

(** Three buttons, the last two checked in the markup. *)
Definition twoChecked : Element :=
  group [button (Some "false") (Some (-1)%Z);
         button (Some "true") (Some (-1)%Z);
         button (Some "true") (Some 0%Z)].

(** A single button. *)
Definition lone : Element :=
  group [button (Some "false") (Some (-1)%Z)].

(** A label nested inside the second of two buttons. *)
Definition nested : Element :=
  group [button (Some "true") (Some 0%Z);
         Elem (mkAttrs "dash-radio-button" (Some "radio") (Some "false")
                       (Some (-1)%Z))
              [plain "span" []]].

(** Two buttons with two labels between them and one after. *)
Definition labelled : Element :=
  group [button (Some "false") (Some (-1)%Z);
         plain "label" [];
         plain "label" [];
         button (Some "false") (Some (-1)%Z);
         plain "label" []].

(** Three buttons, the last one checked, with labels between them. *)
Definition lastChecked : Element :=
  group [button (Some "false") (Some (-1)%Z);
         plain "label" [];
         button (Some "false") (Some (-1)%Z);
         button (Some "true") (Some 0%Z);
         plain "label" []].

(** Two buttons, nothing checked, the second with [tabindex="0"] in the
    markup, which [RadioButton.connectedCallback] keeps. *)
Definition twoTabStops : Element :=
  group [button (Some "false") (Some (-1)%Z);
         button (Some "false") (Some 0%Z)].

(** Some markup that carries [aria-checked="true"] without being a
    candidate, in front of two buttons the second of which is checked. *)
Definition strayChecked : Element :=
  group [Elem (mkAttrs "div" None (Some "true") None) [];
         button (Some "false") (Some (-1)%Z);
         button (Some "true") (Some 0%Z)].


(** Same-typed siblings the last of which is not a candidate. *)
Definition trailingDiv : Element :=
  group [Elem (mkAttrs "div" (Some "radio") (Some "false") (Some (-1)%Z)) [];
         Elem (mkAttrs "div" (Some "radio") (Some "true") (Some 0%Z)) [];
         Elem (mkAttrs "div" None None None) []].

(* ================================================================== *)
(** ** The [RadioButton] element *)

Module RadioButton.

(** [RadioButton.connectedCallback], run on the button [this].  A string is
    falsy when it is empty, so an empty [aria-checked] gets the default as a
    missing one does; [tabindex] is kept when present. *)
Definition connectedCallback (this : NodeRef) : M unit :=
  setRole this "radio" ;;
  tab <- gets (fun d => match attrsAt d this with
                        | Some a => tabindex a
                        | None => None
                        end) ;;
  setTabindex this (match tab with Some z => z | None => (-1)%Z end) ;;
  chk <- gets (fun d => match attrsAt d this with
                        | Some a => ariaChecked a
                        | None => None
                        end) ;;
  setAriaChecked this (match chk with
                       | Some v => if String.eqb v "" then "false" else v
                       | None => "false"
                       end).

End RadioButton.

(** The attributes of a button after [RadioButton.connectedCallback]. *)
Definition upgraded (a : Attrs) : Attrs :=
  mkAttrs (tagName a) (Some "radio")
          (Some (match ariaChecked a with
                 | Some v => if String.eqb v "" then "false" else v
                 | None => "false"
                 end))
          (Some (match tabindex a with Some z => z | None => (-1)%Z end)).




(* ================================================================== *)
(** ** Notions for keyboard navigation *)

(** The item after (before) position [k] of [l], going round. *)
Definition cyclicNext (l : list NodeRef) (k : nat) : option NodeRef :=
  nth_error l ((k + 1) mod length l).

Definition cyclicPrev (l : list NodeRef) (k : nat) : option NodeRef :=
  nth_error l ((k + length l - 1) mod length l).

(** The documented layout, with at least one item and no stray
    [aria-checked="true"]. *)
Definition wellFormed (T : string) (d : Element) : Prop :=
  uniformGroup T d = true /\ onlyItemsChecked d /\ items d <> [].

(** Two trees with the same nodes, element types and roles. *)
Definition sameLayout (d d' : Element) : Prop :=
  descendants d' = descendants d /\
  forall p, option_map (fun a => (tagName a, role a)) (attrsAt d' p)
            = option_map (fun a => (tagName a, role a)) (attrsAt d p).

(** [d'] has the layout of [d] and agrees with it below the host on every
    node that is not an item. *)
Definition similar (d d' : Element) : Prop :=
  sameLayout d d' /\
  forall p, p <> [] -> isItem d p = false -> attrsAt d' p = attrsAt d p.

(** The roving-tabindex condition on a tree: the host is no candidate, at
    most one item is selected, some item is focusable, and a selected item
    is focusable. *)
Definition rovingOk (d : Element) : Prop :=
  isRadio d [] = false /\
  length (selectedItems d) <= 1 /\
  focusableItems d <> [] /\
  incl (selectedItems d) (focusableItems d).

(** How often a trace calls [preventDefault]. *)
Fixpoint preventDefaults (t : list Effect) : nat :=
  match t with
  | [] => 0
  | PreventDefault :: r => S (preventDefaults r)
  | _ :: r => preventDefaults r
  end.

(** A state that differs from [s] in its trace only. *)
Definition logged (s : State) (t : list Effect) : State :=
  mkState (dom s) (keydownListener s) (clickListener s) (trace s ++ t).

(** What a handler logs before it reaches [_setChecked]. *)
Definition prefixOf (ev : Event) : list Effect :=
  match ev with
  | KeyDown _ => [PreventDefault]
  | Click _ => []
  end.

(** The event is an arrow key. *)
Definition arrowKey (ev : Event) : bool :=
  match ev with
  | KeyDown k => isArrow k
  | Click _ => false
  end.

(** The four ways an event can end, with the state each leaves:
    - ignored: nothing happens;
    - selected: [_setChecked(x)] ran to its end, on an item, or on the host
      itself when the host was clicked while carrying role [radio];
    - cleared: an arrow key handed [null] to [_setChecked], which threw
      after [_uncheckAll];
    - stuck: the next-key path dereferenced [null] before any write. *)
Inductive Handled (s : State) (ev : Event) : Completion unit -> State -> Prop :=
| HIgnored :
    selects s ev = false ->
    Handled s ev (Normal tt) s
| HSelected (x : NodeRef) :
    selects s ev = true ->
    (In x (items (dom s)) \/ ev = Click []) ->
    (forall t, ev = Click t -> x = t) ->
    Handled s ev (Normal tt)
      (mkState (checkNode x (uncheckAllDom (dom s)))
               (keydownListener s) (clickListener s)
               (trace s ++ prefixOf ev
                        ++ flat_map clearTrace (items (dom s))
                        ++ checkTrace x ++ [Focus x]))
| HCleared (k : Z) :
    ev = KeyDown k -> isArrow k = true ->
    Handled s ev (Throw TypeError)
      (mkState (uncheckAllDom (dom s))
               (keydownListener s) (clickListener s)
               (trace s ++ [PreventDefault]
                        ++ flat_map clearTrace (items (dom s))))
| HStuck (k : Z) :
    ev = KeyDown k -> isArrow k = true ->
    querySelector isSelected (dom s) = None ->
    Handled s ev (Throw TypeError) (logged s [PreventDefault]).

(* ================================================================== *)
(** ** The scenarios of the specification *)

Example scenario_attach :
  let s := exec connectedCallback (initial abc) in
  focusableItems (dom s) = [[0]] /\ selectedItems (dom s) = [].
Proof. vm_compute. split; reflexivity. Qed.

Example scenario_next3 :
  let s0 := exec connectedCallback (initial abc) in
  let s1 := run [KeyDown 40] s0 in
  let s2 := run [KeyDown 39] s1 in
  let s3 := run [KeyDown 40] s2 in
  selectedItems (dom s1) = [[1]] /\ focusableItems (dom s1) = [[1]] /\
  selectedItems (dom s2) = [[2]] /\ focusableItems (dom s2) = [[2]] /\
  selectedItems (dom s3) = [[0]] /\ focusableItems (dom s3) = [[0]].
Proof. vm_compute. repeat split; reflexivity. Qed.

Example scenario_pointer :
  let s0 := exec connectedCallback (initial secondChecked) in
  let s1 := run [Click [2]] s0 in
  selectedItems (dom s0) = [[1]] /\
  selectedItems (dom s1) = [[2]] /\ focusableItems (dom s1) = [[2]] /\
  focusRequests (trace s1) = [[2]] /\
  isSelected (dom s1) [1] = false.
Proof. vm_compute. repeat split; reflexivity. Qed.

Example scenario_single :
  let s0 := exec connectedCallback (initial lone) in
  selectedItems (dom (run [KeyDown 40] s0)) = [[0]] /\
  selectedItems (dom (run [KeyDown 38] s0)) = [[0]].
Proof. vm_compute. split; reflexivity. Qed.

Example scenario_nested_click :
  run [Click [1; 0]] (initial nested) = initial nested.
Proof. reflexivity. Qed.

(* ================================================================== *)
(** ** References, updates and document order *)

Lemma Element_ind' (P : Element -> Prop) :
  (forall a kids, Forall P kids -> P (Elem a kids)) ->
  forall e, P e.
Proof.
  intros H. fix IH 1. intros [a kids]. apply H.
  induction kids as [|k ks IHks]; constructor; [apply IH | exact IHks].
Qed.

Lemma nodeEqb_eq p q : nodeEqb p q = true <-> p = q.
Proof.
  unfold nodeEqb. destruct (list_eq_dec Nat.eq_dec p q); split; congruence.
Qed.

Lemma nodeEqb_refl p : nodeEqb p p = true.
Proof. apply nodeEqb_eq. reflexivity. Qed.

Lemma nodeEqb_neq p q : p <> q -> nodeEqb p q = false.
Proof.
  intros H. destruct (nodeEqb p q) eqn:E; [|reflexivity].
  apply nodeEqb_eq in E. contradiction.
Qed.

Lemma nodeEqb_sym p q : nodeEqb p q = nodeEqb q p.
Proof.
  destruct (nodeEqb q p) eqn:E.
  - apply nodeEqb_eq in E. subst. apply nodeEqb_refl.
  - apply nodeEqb_neq. intros ->. rewrite nodeEqb_refl in E. discriminate.
Qed.

Lemma nodeEqb_cons i j p q :
  nodeEqb (i :: p) (j :: q) = Nat.eqb i j && nodeEqb p q.
Proof.
  destruct (Nat.eqb_spec i j) as [->|Hij]; simpl.
  - destruct (nodeEqb p q) eqn:E.
    + apply nodeEqb_eq in E. subst. apply nodeEqb_refl.
    + apply nodeEqb_neq. intros [= ->]. rewrite nodeEqb_refl in E. discriminate.
  - apply nodeEqb_neq. congruence.
Qed.

Lemma nth_error_updNth {A} (g : A -> A) l i j :
  nth_error (updNth i g l) j =
  if Nat.eqb i j then option_map g (nth_error l j) else nth_error l j.
Proof.
  revert i j. induction l as [|x l IH]; intros i j.
  - simpl. destruct j; destruct (Nat.eqb i _); reflexivity.
  - destruct i, j; simpl; try reflexivity. apply IH.
Qed.

Lemma length_updNth {A} (g : A -> A) l i :
  length (updNth i g l) = length l.
Proof.
  revert i. induction l as [|x l IH]; intros [|i]; simpl; auto.
Qed.

Lemma map_updNth {A B} (h : A -> B) (g : A -> A) l i :
  (forall x, h (g x) = h x) -> map h (updNth i g l) = map h l.
Proof.
  intros H. revert i. induction l as [|x l IH]; intros [|i]; simpl;
    rewrite ?H, ?IH; reflexivity.
Qed.

(** A write changes the attributes of its target and of no other node. *)
Lemma attrsAt_updateAt f p : forall q e,
  attrsAt (updateAt f p e) q =
  if nodeEqb p q then option_map f (attrsAt e q) else attrsAt e q.
Proof.
  unfold attrsAt. induction p as [|i p IH]; intros q e.
  - destruct q as [|j q].
    + rewrite nodeEqb_refl. reflexivity.
    + rewrite nodeEqb_neq by discriminate. reflexivity.
  - destruct q as [|j q].
    + rewrite nodeEqb_neq by discriminate. reflexivity.
    + rewrite nodeEqb_cons. cbn [nodeAt updateAt childrenOf].
      rewrite nth_error_updNth.
      destruct (Nat.eqb_spec i j) as [->|Hij]; cbn [andb].
      * destruct (nth_error (childrenOf e) j) as [k|]; cbn [option_map].
        -- apply IH.
        -- destruct (nodeEqb p q); reflexivity.
      * reflexivity.
Qed.

Lemma childCount_updateAt f p : forall q e,
  childCount (updateAt f p e) q = childCount e q.
Proof.
  unfold childCount. induction p as [|i p IH]; intros q e.
  - destruct q as [|j q]; simpl; reflexivity.
  - destruct q as [|j q]; simpl.
    + apply length_updNth.
    + rewrite nth_error_updNth.
      destruct (Nat.eqb_spec i j) as [->|Hij]; [|reflexivity].
      destruct (nth_error (childrenOf e) j) as [k|]; simpl; [apply IH|reflexivity].
Qed.

Lemma descendants_updateAt f p : forall e,
  descendants (updateAt f p e) = descendants e.
Proof.
  induction p as [|i p IH]; intros [a kids]; simpl.
  - reflexivity.
  - f_equal. apply map_updNth. exact IH.
Qed.

Lemma in_number r : forall ds i,
  In r (number i ds) <->
  exists j d rest, r = (i + j) :: rest /\ nth_error ds j = Some d /\
                   (rest = [] \/ In rest d).
Proof.
  induction ds as [|d ds IH]; intros i; simpl.
  - split; [tauto|]. intros (j & d & rest & _ & H & _). destruct j; discriminate.
  - rewrite in_app_iff, IH, in_map_iff. split.
    + intros [H|[(rest & H & Hin)|(j & d' & rest & H & Hn & Hr)]].
      * exists 0, d, []. rewrite Nat.add_0_r. auto.
      * exists 0, d, rest. rewrite Nat.add_0_r. auto.
      * exists (S j), d', rest. rewrite Nat.add_succ_r. auto.
    + intros (j & d' & rest & H & Hn & Hr). destruct j as [|j].
      * simpl in Hn. injection Hn as <-. rewrite Nat.add_0_r in H.
        destruct Hr as [->|Hr]; [left; auto|right; left; eauto].
      * right. right. exists j, d', rest. rewrite Nat.add_succ_r in H. auto.
Qed.

(** Document order lists exactly the nodes strictly below the host. *)
Lemma in_descendants : forall p e,
  In p (descendants e) <-> p <> [] /\ nodeAt e p <> None.
Proof.
  induction p as [|i p IH]; intros [a kids].
  - simpl. rewrite in_number. split.
    + intros (j & d & rest & H & _). discriminate.
    + intros [H _]. contradiction.
  - simpl. rewrite in_number. split.
    + intros (j & d & rest & H & Hn & Hr). simpl in H. injection H as -> ->.
      split; [discriminate|].
      rewrite nth_error_map in Hn.
      destruct (nth_error kids j) as [k|]; [|discriminate].
      simpl in Hn. injection Hn as <-.
      destruct Hr as [->|Hr]; [simpl; discriminate|].
      apply IH in Hr. tauto.
    + intros [_ H]. destruct (nth_error kids i) as [k|] eqn:E; [|contradiction].
      exists i, (descendants k), p. split; [reflexivity|]. split.
      * rewrite nth_error_map, E. reflexivity.
      * destruct p as [|j p]; [left; reflexivity|right].
        apply IH. split; [discriminate|exact H].
Qed.

Lemma NoDup_map_cons (i : nat) (l : list NodeRef) :
  NoDup l -> NoDup (map (cons i) l).
Proof.
  induction 1 as [|x l Hx Hl IH]; simpl; constructor; auto.
  rewrite in_map_iff. intros (y & [= ->] & Hy). contradiction.
Qed.

Lemma NoDup_number : forall ds i,
  Forall (fun d : list NodeRef => NoDup d /\ ~ In [] d) ds ->
  NoDup (number i ds).
Proof.
  induction ds as [|d ds IH]; intros i H; simpl.
  - constructor.
  - inversion H as [|? ? [Hd Hnil] Hds]; subst.
    constructor.
    + rewrite in_app_iff, in_map_iff, in_number.
      intros [(x & Hx & Hin)|(j & d' & rest & Hx & _)].
      * injection Hx as ->. contradiction.
      * injection Hx as Hx _. lia.
    + apply NoDup_app.
      * apply NoDup_map_cons. exact Hd.
      * apply IH. exact Hds.
      * intros x Hx Hy. apply in_map_iff in Hx as (y & <- & _).
        apply in_number in Hy as (j & d' & rest & Hy & _).
        injection Hy as Hy _. lia.
Qed.

Lemma NoDup_descendants : forall e, NoDup (descendants e).
Proof.
  induction e as [a kids IH] using Element_ind'. simpl.
  apply NoDup_number. apply Forall_map.
  eapply Forall_impl; [|exact IH]. intros k Hk. split; [exact Hk|].
  rewrite in_descendants. tauto.
Qed.

(* ================================================================== *)
(** ** What [_uncheckAll] and [_checkNode] do to the tree *)

Lemma attrsAt_clearNode d n p :
  attrsAt (clearNode d n) p =
  if nodeEqb n p then option_map cleared (attrsAt d p) else attrsAt d p.
Proof.
  unfold clearNode. rewrite !attrsAt_updateAt.
  destruct (nodeEqb n p); [|reflexivity].
  destruct (attrsAt d p); reflexivity.
Qed.

Lemma attrsAt_checkNode d n p :
  attrsAt (checkNode n d) p =
  if nodeEqb n p then option_map checked (attrsAt d p) else attrsAt d p.
Proof.
  unfold checkNode. rewrite !attrsAt_updateAt.
  destruct (nodeEqb n p); [|reflexivity].
  destruct (attrsAt d p); reflexivity.
Qed.

Lemma attrsAt_clearFold : forall l d p,
  attrsAt (fold_left clearNode l d) p =
  if existsb (nodeEqb p) l then option_map cleared (attrsAt d p)
  else attrsAt d p.
Proof.
  induction l as [|n l IH]; intros d p; simpl.
  - reflexivity.
  - rewrite IH, attrsAt_clearNode, (nodeEqb_sym p n).
    destruct (nodeEqb n p), (existsb (nodeEqb p) l), (attrsAt d p);
      reflexivity.
Qed.

Lemma descendants_clearFold : forall l d,
  descendants (fold_left clearNode l d) = descendants d.
Proof.
  induction l as [|n l IH]; intros d; simpl; [reflexivity|].
  rewrite IH. unfold clearNode. rewrite !descendants_updateAt. reflexivity.
Qed.

Lemma attrsAt_uncheckAllDom d p :
  attrsAt (uncheckAllDom d) p =
  if isItem d p then option_map cleared (attrsAt d p) else attrsAt d p.
Proof. apply attrsAt_clearFold. Qed.

Lemma descendants_uncheckAllDom d :
  descendants (uncheckAllDom d) = descendants d.
Proof. apply descendants_clearFold. Qed.

Lemma descendants_checkNode n d :
  descendants (checkNode n d) = descendants d.
Proof. unfold checkNode. rewrite !descendants_updateAt. reflexivity. Qed.

Lemma isItem_in d n : isItem d n = true <-> In n (items d).
Proof.
  unfold isItem. rewrite existsb_exists. split.
  - intros (x & Hx & E). apply nodeEqb_eq in E. subst. exact Hx.
  - intros H. exists n. split; [exact H|apply nodeEqb_refl].
Qed.

Lemma in_items d n :
  In n (items d) <-> In n (descendants d) /\ isRadio d n = true.
Proof. unfold items, querySelectorAll. apply filter_In. Qed.

Lemma isItem_radio d n : isItem d n = true -> isRadio d n = true.
Proof. rewrite isItem_in, in_items. tauto. Qed.

(** Two trees with the same nodes and the same roles have the same items. *)
Lemma items_ext d d' :
  descendants d' = descendants d ->
  (forall p, isRadio d' p = isRadio d p) ->
  items d' = items d.
Proof.
  intros Hd Hr. unfold items, querySelectorAll. rewrite Hd.
  apply filter_ext. exact Hr.
Qed.

Lemma isRadio_uncheckAllDom d p : isRadio (uncheckAllDom d) p = isRadio d p.
Proof.
  unfold isRadio. rewrite attrsAt_uncheckAllDom.
  destruct (isItem d p), (attrsAt d p); reflexivity.
Qed.

Lemma isRadio_checkNode n d p : isRadio (checkNode n d) p = isRadio d p.
Proof.
  unfold isRadio. rewrite attrsAt_checkNode.
  destruct (nodeEqb n p), (attrsAt d p); reflexivity.
Qed.

Lemma items_uncheckAllDom d : items (uncheckAllDom d) = items d.
Proof.
  apply items_ext; [apply descendants_uncheckAllDom|apply isRadio_uncheckAllDom].
Qed.

Lemma items_checkNode n d : items (checkNode n d) = items d.
Proof.
  apply items_ext; [apply descendants_checkNode|apply isRadio_checkNode].
Qed.

Lemma NoDup_items d : NoDup (items d).
Proof. apply NoDup_filter, NoDup_descendants. Qed.

(** The methods, run. *)
Lemma forEach_clear : forall l s,
  forEach l (fun btn => setAriaChecked btn "false" ;; setTabindex btn (-1)) s =
  (Normal tt,
   mkState (fold_left clearNode l (dom s)) (keydownListener s)
           (clickListener s) (trace s ++ flat_map clearTrace l)).
Proof.
  induction l as [|n l IH]; intros s.
  - simpl. rewrite app_nil_r. destruct s; reflexivity.
  - cbn [forEach]. unfold bind at 1.
    unfold bind at 1. unfold setAriaChecked, setTabindex, write.
    cbn [dom keydownListener clickListener trace].
    rewrite IH. cbn [dom keydownListener clickListener trace fold_left flat_map].
    unfold clearNode at 2. rewrite <- !app_assoc. reflexivity.
Qed.

Lemma uncheckAll_run s :
  _uncheckAll s =
  (Normal tt,
   mkState (uncheckAllDom (dom s)) (keydownListener s) (clickListener s)
           (trace s ++ flat_map clearTrace (items (dom s)))).
Proof.
  unfold _uncheckAll, bind, gets. apply forEach_clear.
Qed.

Lemma checkNode_run n s :
  _checkNode (Some n) s =
  (Normal tt,
   mkState (checkNode n (dom s)) (keydownListener s) (clickListener s)
           (trace s ++ checkTrace n)).
Proof.
  unfold _checkNode, bind, deref, ret, setAriaChecked, setTabindex, write.
  cbn [dom keydownListener clickListener trace]. rewrite <- app_assoc.
  reflexivity.
Qed.

Lemma setChecked_run n s :
  _setChecked (Some n) s =
  (Normal tt,
   mkState (checkNode n (uncheckAllDom (dom s))) (keydownListener s)
           (clickListener s)
           (trace s ++ flat_map clearTrace (items (dom s))
                    ++ checkTrace n ++ [Focus n])).
Proof.
  unfold _setChecked, bind. rewrite uncheckAll_run, checkNode_run.
  unfold _focusNode, bind, deref, ret, focus.
  cbn [dom keydownListener clickListener trace]. rewrite <- !app_assoc.
  reflexivity.
Qed.

Lemma setChecked_null s :
  _setChecked None s =
  (Throw TypeError,
   mkState (uncheckAllDom (dom s)) (keydownListener s) (clickListener s)
           (trace s ++ flat_map clearTrace (items (dom s)))).
Proof.
  unfold _setChecked, bind. rewrite uncheckAll_run. reflexivity.
Qed.

(* ================================================================== *)
(** ** The flags after a selection *)

Lemma filter_nodeEqb_NoDup n : forall l,
  NoDup l -> filter (nodeEqb n) l = if existsb (nodeEqb n) l then [n] else [].
Proof.
  induction l as [|x l IH]; intros H; simpl; [reflexivity|].
  inversion H as [|? ? Hx Hl]; subst. rewrite (IH Hl).
  destruct (nodeEqb n x) eqn:E; simpl; [|reflexivity].
  apply nodeEqb_eq in E. subst x.
  destruct (existsb (nodeEqb n) l) eqn:E'; [|reflexivity].
  apply existsb_exists in E' as (y & Hy & E'). apply nodeEqb_eq in E'.
  subst. contradiction.
Qed.

Lemma item_cleared d p :
  isItem d p = true ->
  isSelected (uncheckAllDom d) p = false /\
  isFocusable (uncheckAllDom d) p = false.
Proof.
  intros H. unfold isSelected, isFocusable.
  rewrite attrsAt_uncheckAllDom, H.
  destruct (attrsAt d p); split; reflexivity.
Qed.

Lemma item_after_select d n p :
  isItem d p = true ->
  isSelected (checkNode n (uncheckAllDom d)) p = nodeEqb n p /\
  isFocusable (checkNode n (uncheckAllDom d)) p = nodeEqb n p.
Proof.
  intros H. unfold isSelected, isFocusable.
  rewrite attrsAt_checkNode, attrsAt_uncheckAllDom, H.
  assert (Hv : attrsAt d p <> None).
  { apply isItem_radio in H. unfold isRadio in H.
    destruct (attrsAt d p); [discriminate|discriminate H]. }
  destruct (attrsAt d p); [|contradiction].
  destruct (nodeEqb n p); split; reflexivity.
Qed.

Lemma filter_items_ext (f g : NodeRef -> bool) d :
  (forall p, isItem d p = true -> f p = g p) ->
  filter f (items d) = filter g (items d).
Proof.
  intros H. apply filter_ext_in. intros p Hp. apply H, isItem_in, Hp.
Qed.

Lemma selectedItems_after_select d n :
  selectedItems (checkNode n (uncheckAllDom d)) =
  if isItem d n then [n] else [].
Proof.
  unfold selectedItems. rewrite items_checkNode, items_uncheckAllDom.
  rewrite (filter_items_ext _ (nodeEqb n)).
  - apply filter_nodeEqb_NoDup, NoDup_items.
  - intros p Hp. apply item_after_select, Hp.
Qed.

Lemma focusableItems_after_select d n :
  focusableItems (checkNode n (uncheckAllDom d)) =
  if isItem d n then [n] else [].
Proof.
  unfold focusableItems. rewrite items_checkNode, items_uncheckAllDom.
  rewrite (filter_items_ext _ (nodeEqb n)).
  - apply filter_nodeEqb_NoDup, NoDup_items.
  - intros p Hp. apply item_after_select, Hp.
Qed.

Lemma filter_none {A} (f : A -> bool) l :
  (forall x, In x l -> f x = false) -> filter f l = [].
Proof.
  induction l as [|x l IH]; intros H; simpl; [reflexivity|].
  rewrite (H x) by (left; reflexivity). apply IH.
  intros y Hy. apply H. right. exact Hy.
Qed.

Lemma selectedItems_uncheckAllDom d : selectedItems (uncheckAllDom d) = [].
Proof.
  unfold selectedItems. rewrite items_uncheckAllDom. apply filter_none.
  intros p Hp. apply item_cleared, isItem_in, Hp.
Qed.

(** Whatever it is handed, [_setChecked] leaves at most one selected item. *)
Lemma setChecked_at_most_one node s :
  length (selectedItems (dom (exec (_setChecked node) s))) <= 1.
Proof.
  unfold exec. destruct node as [n|].
  - rewrite setChecked_run. cbn [snd dom].
    rewrite selectedItems_after_select. destruct (isItem (dom s) n); simpl; lia.
  - rewrite setChecked_null. cbn [snd dom].
    rewrite selectedItems_uncheckAllDom. simpl. lia.
Qed.

Lemma nothing_checked_no_selection d :
  querySelector isSelected d = None -> selectedItems d = [].
Proof.
  intros H. unfold selectedItems, items, querySelectorAll.
  apply filter_none. intros x Hx. apply filter_In in Hx as [Hx _].
  exact (find_none _ _ H x Hx).
Qed.

(** The arrow-key paths.  Moving backwards always ends in a call of
    [_setChecked] on the tree it started from.  Moving forwards does too,
    unless the sibling walk dereferences [null], which needs that nothing
    at all is checked. *)
Lemma setCheckedToPrev_cases s :
  exists x, _setCheckedToPrevButton s = _setChecked x s.
Proof.
  unfold _setCheckedToPrevButton, checkedOrFirst, checkedRadioButton,
    firstRadioButton, lastRadioButton, _prevRadioButton, bind, gets, ret.
  destruct (querySelector isSelected (dom s)) as [c|] eqn:Ec.
  - destruct (sameNode _ _); [eexists; reflexivity|].
    eexists. unfold deref, ret. reflexivity.
  - destruct (querySelector (fun d n => isRadio d n && firstOfType d n) (dom s))
      as [f|] eqn:Ef.
    + destruct (sameNode _ _); eexists; unfold deref, ret; reflexivity.
    + cbn [sameNode]. eexists. reflexivity.
Qed.

Lemma setCheckedToNext_cases s :
  (exists x, _setCheckedToNextButton s = _setChecked x s) \/
  (_setCheckedToNextButton s = (Throw TypeError, s) /\
   querySelector isSelected (dom s) = None).
Proof.
  unfold _setCheckedToNextButton, checkedOrFirst, checkedRadioButton,
    firstRadioButton, lastRadioButton, _nextRadioButton, bind, gets, ret.
  destruct (querySelector isSelected (dom s)) as [c|] eqn:Ec.
  - destruct (sameNode _ _); [left; eexists; reflexivity|].
    left. eexists. unfold deref, ret. reflexivity.
  - destruct (querySelector (fun d n => isRadio d n && firstOfType d n) (dom s))
      as [f|] eqn:Ef.
    + destruct (sameNode _ _); left; eexists; unfold deref, ret; reflexivity.
    + destruct (querySelector (fun d n => isRadio d n && lastOfType d n) (dom s))
        as [l|] eqn:El; cbn [sameNode].
      * right. split; reflexivity.
      * left. eexists. reflexivity.
Qed.

(* ================================================================== *)
(** ** Selection *)

Lemma run_snoc evs ev s : run (evs ++ [ev]) s = exec (handle ev) (run evs s).
Proof.
  revert s. induction evs as [|e evs IH]; intros s; simpl; [reflexivity|].
  apply IH.
Qed.

Lemma handle_at_most_one s ev :
  selects s ev = true ->
  length (selectedItems (dom (exec (handle ev) s))) <= 1.
Proof.
  destruct ev as [k|t]; cbn [selects handle]; intros H.
  - unfold isArrow in H. unfold _onKeyDown.
    destruct ((k =? KEYCODE.UP)%Z || (k =? KEYCODE.LEFT)%Z) eqn:Eup.
    + unfold exec, bind, preventDefault.
      destruct (setCheckedToPrev_cases
                  (mkState (dom s) (keydownListener s) (clickListener s)
                           (trace s ++ [PreventDefault]))) as [x Hx].
      rewrite Hx. apply setChecked_at_most_one.
    + cbn [orb] in H. rewrite H.
      unfold exec, bind, preventDefault.
      destruct (setCheckedToNext_cases
                  (mkState (dom s) (keydownListener s) (clickListener s)
                           (trace s ++ [PreventDefault]))) as [[x Hx]|[Hx Hn]].
      * rewrite Hx. apply setChecked_at_most_one.
      * rewrite Hx. cbn [snd dom]. cbn [dom] in Hn.
        rewrite (nothing_checked_no_selection _ Hn). simpl. lia.
  - unfold _onClick, exec, bind, gets. rewrite H.
    apply setChecked_at_most_one.
Qed.

(** C1.  Single-selection invariant.  Take any group in any state and any
    sequence of key and click events.  Immediately after an event that
    selects (an arrow key, or a click whose target has role [radio]; these
    are the events that funnel into [_setChecked]), at most one item of the
    group has [aria-checked="true"].  This holds also when the handler
    throws: [_uncheckAll] has run by then, or nothing was checked at all. *)
Theorem single_selection_invariant (s : State) (evs : list Event) (ev : Event) :
  selects (run evs s) ev = true ->
  length (selectedItems (dom (run (evs ++ [ev]) s))) <= 1.
Proof.
  intros H. rewrite run_snoc. apply handle_at_most_one. exact H.
Qed.

Lemma single_selection_invariant_witness :
  selects (run [KeyDown 40; Click [2]] (initial abc)) (KeyDown 38) = true /\
  length (selectedItems
            (dom (run ([KeyDown 40; Click [2]] ++ [KeyDown 38]) (initial abc))))
  <= 1.
Proof.
  split.
  - reflexivity.
  - apply (single_selection_invariant (initial abc) [KeyDown 40; Click [2]]
             (KeyDown 38)).
    reflexivity.
Defined.

(** C3.  For an item [target] of the group, [_setChecked(target)] completes
    normally; it first writes [aria-checked="false"] and [tabindex=-1] on
    every item in document order, then [aria-checked="true"] and
    [tabindex=0] on [target], and last of all asks for focus on [target]:
    that is the whole of what it adds to the trace of host calls, so there
    is exactly one focus request and it follows every flag write.
    Afterwards [target] is selected and focusable, every other item is
    neither, and the group has the same items as before. *)
Theorem setChecked_selects_target (s : State) (target : NodeRef) :
  In target (items (dom s)) ->
  let s' := exec (_setChecked (Some target)) s in
  outcome (_setChecked (Some target)) s = Normal tt /\
  trace s' = trace s ++ flat_map clearTrace (items (dom s))
                     ++ checkTrace target ++ [Focus target] /\
  focusRequests (flat_map clearTrace (items (dom s)) ++ checkTrace target) = [] /\
  isSelected (dom s') target = true /\
  isFocusable (dom s') target = true /\
  (forall n, In n (items (dom s)) -> n <> target ->
             isSelected (dom s') n = false /\ isFocusable (dom s') n = false) /\
  items (dom s') = items (dom s).
Proof.
  intros Ht s'. subst s'. unfold exec, outcome. rewrite setChecked_run.
  cbn [fst snd dom trace].
  apply isItem_in in Ht.
  split; [reflexivity|]. split; [reflexivity|]. split.
  { induction (items (dom s)) as [|x l IH]; simpl; [reflexivity|exact IH]. }
  destruct (item_after_select (dom s) target target Ht) as [Hs Hf].
  rewrite nodeEqb_refl in Hs, Hf.
  split; [exact Hs|]. split; [exact Hf|]. split.
  - intros n Hn Hne. apply isItem_in in Hn.
    destruct (item_after_select (dom s) target n Hn) as [Hs' Hf'].
    rewrite nodeEqb_neq in Hs', Hf' by congruence. split; assumption.
  - rewrite items_checkNode, items_uncheckAllDom. reflexivity.
Qed.

Lemma setChecked_selects_target_witness :
  In [2] (items (dom (initial abc))) /\
  isSelected (dom (exec (_setChecked (Some [2])) (initial abc))) [2] = true.
Proof.
  assert (H : In [2] (items (dom (initial abc)))).
  { right. right. left. reflexivity. }
  split.
  - exact H.
  - exact (proj1 (proj2 (proj2 (proj2
             (setChecked_selects_target (initial abc) [2] H))))).
Defined.

(* ================================================================== *)
(** ** Events that are not for the group *)

(** C9.  A key event whose key code is none of up, left, down, right is
    ignored: [_onKeyDown] completes normally and the state, hence every
    flag of every item, is what it was.  The space key is one of them,
    although the key code table lists it. *)
Theorem onKeyDown_ignores_other_keys (s : State) (k : Z) :
  (k <> KEYCODE.UP -> k <> KEYCODE.LEFT ->
   k <> KEYCODE.DOWN -> k <> KEYCODE.RIGHT ->
   _onKeyDown k s = (Normal tt, s)) /\
  _onKeyDown KEYCODE.SPACE s = (Normal tt, s).
Proof.
  split.
  - intros Hu Hl Hd Hr. unfold _onKeyDown.
    apply Z.eqb_neq in Hu, Hl, Hd, Hr. rewrite Hu, Hl, Hd, Hr. reflexivity.
  - reflexivity.
Qed.

Lemma onKeyDown_ignores_other_keys_witness :
  _onKeyDown 13 (initial abc) = (Normal tt, initial abc).
Proof.
  apply (proj1 (onKeyDown_ignores_other_keys (initial abc) 13));
    unfold KEYCODE.UP, KEYCODE.LEFT, KEYCODE.DOWN, KEYCODE.RIGHT; lia.
Defined.

(** C10.  A click whose exact target does not have role [radio] changes
    nothing: no flag is written and no focus is requested, whether the
    target is the host, a node between the items or a node nested inside an
    item.  A click whose target has role [radio] is [_setChecked] of it. *)
Theorem onClick_only_on_radio (s : State) (target : NodeRef) :
  (isRadio (dom s) target = false -> _onClick target s = (Normal tt, s)) /\
  (isRadio (dom s) target = true ->
   _onClick target s = _setChecked (Some target) s).
Proof.
  unfold _onClick, bind, gets. split; intros H; rewrite H; reflexivity.
Qed.

Lemma onClick_only_on_radio_witness :
  isRadio (dom (initial nested)) [1; 0] = false /\
  _onClick [1; 0] (initial nested) = (Normal tt, initial nested).
Proof.
  split.
  - reflexivity.
  - apply (proj1 (onClick_only_on_radio (initial nested) [1; 0])).
    reflexivity.
Defined.

(* ================================================================== *)
(** ** The sibling walks *)

Lemma nodeAt_childRef : forall par d k,
  nodeAt d (childRef par k) =
  match nodeAt d par with
  | Some e => nth_error (childrenOf e) k
  | None => None
  end.
Proof.
  unfold childRef. induction par as [|i par IH]; intros d k; simpl.
  - destruct (nth_error (childrenOf d) k); reflexivity.
  - destruct (nth_error (childrenOf d) i) as [c|]; [apply IH|reflexivity].
Qed.

Lemma isRadio_beyond d par k :
  childCount d par <= k -> isRadio d (childRef par k) = false.
Proof.
  unfold childCount, isRadio, attrsAt. rewrite nodeAt_childRef.
  destruct (nodeAt d par) as [e|]; [|reflexivity].
  intros H. apply nth_error_None in H. rewrite H. reflexivity.
Qed.

Lemma parentRef_childRef par j : parentRef (childRef par j) = par.
Proof. apply removelast_last. Qed.

Lemma indexOf_childRef par j : indexOf (childRef par j) = j.
Proof. apply last_last. Qed.

Lemma childRef_nonnil par j : childRef par j <> [].
Proof. unfold childRef. intros H. destruct par; discriminate. Qed.

Lemma prevRadioOf_childRef d par j :
  prevRadioOf d (childRef par j) = prevLoop d par j.
Proof.
  unfold prevRadioOf. rewrite parentRef_childRef, indexOf_childRef.
  pose proof (childRef_nonnil par j) as H.
  destruct (childRef par j); [contradiction|reflexivity].
Qed.

Lemma nextRadioOf_childRef d par j :
  nextRadioOf d (childRef par j)
  = nextLoop d par (S j) (childCount d par - S j).
Proof.
  unfold nextRadioOf. rewrite parentRef_childRef, indexOf_childRef.
  pose proof (childRef_nonnil par j) as H.
  destruct (childRef par j); [contradiction|reflexivity].
Qed.

(** The two walks obey the equations of the loops in the source: take the
    adjacent sibling; answer [null] if there is none, the sibling if it has
    role [radio], and go on from the sibling otherwise. *)
Lemma prevRadioOf_loop d n :
  prevRadioOf d n =
  match previousElementSibling d n with
  | None => None
  | Some p => if isRadio d p then Some p else prevRadioOf d p
  end.
Proof.
  destruct n as [|x n]; [reflexivity|].
  unfold prevRadioOf at 1, previousElementSibling.
  destruct (indexOf (x :: n)) as [|j]; [reflexivity|].
  cbn [prevLoop]. rewrite prevRadioOf_childRef. reflexivity.
Qed.

Lemma nextRadioOf_loop d n :
  nextRadioOf d n =
  match nextElementSibling d n with
  | None => None
  | Some m => if isRadio d m then Some m else nextRadioOf d m
  end.
Proof.
  destruct n as [|x n]; [reflexivity|].
  unfold nextRadioOf at 1, nextElementSibling.
  set (par := parentRef (x :: n)). set (i := indexOf (x :: n)).
  cbv zeta. rewrite nodeAt_childRef. unfold childCount.
  destruct (nodeAt d par) as [e|] eqn:E; [|reflexivity].
  destruct (nth_error (childrenOf e) (S i)) as [k|] eqn:Ek.
  - assert (Hlt : S i < length (childrenOf e)).
    { apply nth_error_Some. congruence. }
    destruct (length (childrenOf e) - S i) as [|r] eqn:Er; [lia|].
    cbn [nextLoop]. rewrite nextRadioOf_childRef. unfold childCount.
    rewrite E. replace (length (childrenOf e) - S (S i)) with r by lia.
    reflexivity.
  - apply nth_error_None in Ek.
    replace (length (childrenOf e) - S i) with 0 by lia. reflexivity.
Qed.

Lemma nextLoop_some d par : forall r j m,
  nextLoop d par j r = Some m ->
  exists j', m = childRef par j' /\ j <= j' < j + r /\ isRadio d m = true /\
             forall k, j <= k < j' -> isRadio d (childRef par k) = false.
Proof.
  induction r as [|r IH]; intros j m H; simpl in H; [discriminate|].
  destruct (isRadio d (childRef par j)) eqn:E.
  - injection H as <-. exists j.
    split; [reflexivity|]. split; [lia|]. split; [exact E|].
    intros k Hk. lia.
  - apply IH in H as (j' & -> & Hj & Hr & Hk).
    exists j'. split; [reflexivity|]. split; [lia|]. split; [exact Hr|].
    intros k Hk'. destruct (Nat.eq_dec k j) as [->|Hne]; [exact E|].
    apply Hk. lia.
Qed.

Lemma nextLoop_none d par : forall r j,
  nextLoop d par j r = None ->
  forall k, j <= k < j + r -> isRadio d (childRef par k) = false.
Proof.
  induction r as [|r IH]; intros j H k Hk; simpl in H; [lia|].
  destruct (isRadio d (childRef par j)) eqn:E; [discriminate|].
  destruct (Nat.eq_dec k j) as [->|Hne]; [exact E|].
  apply (IH (S j) H). lia.
Qed.

Lemma prevLoop_some d par : forall i m,
  prevLoop d par i = Some m ->
  exists j', m = childRef par j' /\ j' < i /\ isRadio d m = true /\
             forall k, j' < k < i -> isRadio d (childRef par k) = false.
Proof.
  induction i as [|i IH]; intros m H; simpl in H; [discriminate|].
  destruct (isRadio d (childRef par i)) eqn:E.
  - injection H as <-. exists i.
    split; [reflexivity|]. split; [lia|]. split; [exact E|].
    intros k Hk. lia.
  - apply IH in H as (j' & -> & Hj & Hr & Hk).
    exists j'. split; [reflexivity|]. split; [lia|]. split; [exact Hr|].
    intros k Hk'. destruct (Nat.eq_dec k i) as [->|Hne]; [exact E|].
    apply Hk. lia.
Qed.

Lemma prevLoop_none d par : forall i,
  prevLoop d par i = None ->
  forall k, k < i -> isRadio d (childRef par k) = false.
Proof.
  induction i as [|i IH]; intros H k Hk; simpl in H; [lia|].
  destruct (isRadio d (childRef par i)) eqn:E; [discriminate|].
  destruct (Nat.eq_dec k i) as [->|Hne]; [exact E|].
  apply (IH H). lia.
Qed.

Lemma nearestAfter_unique d par i m m' :
  nearestAfter d par i m -> nearestAfter d par i m' -> m = m'.
Proof.
  intros (j & -> & Hj & Hr & Hk) (j' & -> & Hj' & Hr' & Hk').
  destruct (Nat.lt_trichotomy j j') as [H|[->|H]]; [|reflexivity|].
  - rewrite (Hk' j) in Hr by lia. discriminate.
  - rewrite (Hk j') in Hr' by lia. discriminate.
Qed.

Lemma nearestBefore_unique d par i m m' :
  nearestBefore d par i m -> nearestBefore d par i m' -> m = m'.
Proof.
  intros (j & -> & Hj & Hr & Hk) (j' & -> & Hj' & Hr' & Hk').
  destruct (Nat.lt_trichotomy j j') as [H|[->|H]]; [|reflexivity|].
  - rewrite (Hk j') in Hr' by lia. discriminate.
  - rewrite (Hk' j) in Hr by lia. discriminate.
Qed.

Lemma nextRadioOf_some d n m :
  n <> [] -> nextRadioOf d n = Some m ->
  nearestAfter d (parentRef n) (indexOf n) m.
Proof.
  intros Hn H. destruct n as [|x n]; [contradiction|].
  unfold nextRadioOf in H.
  apply nextLoop_some in H as (j & -> & Hj & Hr & Hk).
  exists j. split; [reflexivity|]. split; [lia|]. split; [exact Hr|].
  intros k Hk'. apply Hk. lia.
Qed.

Lemma nextRadioOf_none d n k :
  n <> [] -> nextRadioOf d n = None ->
  indexOf n < k -> isRadio d (childRef (parentRef n) k) = false.
Proof.
  intros Hn H Hk. destruct n as [|x n]; [contradiction|].
  unfold nextRadioOf in H.
  set (par := parentRef (x :: n)) in *. set (i := indexOf (x :: n)) in *.
  destruct (Nat.lt_ge_cases k (childCount d par)) as [Hlt|Hge].
  - apply (nextLoop_none _ _ _ _ H). lia.
  - apply isRadio_beyond. exact Hge.
Qed.

Lemma prevRadioOf_some d n m :
  n <> [] -> prevRadioOf d n = Some m ->
  nearestBefore d (parentRef n) (indexOf n) m.
Proof.
  intros Hn H. destruct n as [|x n]; [contradiction|].
  unfold prevRadioOf in H.
  apply prevLoop_some in H as (j & -> & Hj & Hr & Hk).
  exists j. split; [reflexivity|]. split; [lia|]. split; [exact Hr|exact Hk].
Qed.

Lemma prevRadioOf_none d n k :
  n <> [] -> prevRadioOf d n = None ->
  k < indexOf n -> isRadio d (childRef (parentRef n) k) = false.
Proof.
  intros Hn H Hk. destruct n as [|x n]; [contradiction|].
  unfold prevRadioOf in H. apply (prevLoop_none _ _ _ H). exact Hk.
Qed.

(** C8.  For a node [n] below the host, [_nextRadioButton(n)] and
    [_prevRadioButton(n)] complete normally without touching the state.
    The first returns [m] exactly when [m] is the nearest sibling after [n]
    with role [radio], every sibling strictly between the two having another
    role or none, and returns [null] exactly when no later sibling has role
    [radio]; the second is the same towards the front. *)
Theorem sibling_walks_find_nearest_radio (s : State) (n : NodeRef) :
  n <> [] ->
  let d := dom s in
  let par := parentRef n in
  let i := indexOf n in
  _nextRadioButton (Some n) s = (Normal (nextRadioOf d n), s) /\
  _prevRadioButton (Some n) s = (Normal (prevRadioOf d n), s) /\
  (forall m, nextRadioOf d n = Some m <-> nearestAfter d par i m) /\
  (nextRadioOf d n = None <->
   forall k, i < k -> isRadio d (childRef par k) = false) /\
  (forall m, prevRadioOf d n = Some m <-> nearestBefore d par i m) /\
  (prevRadioOf d n = None <->
   forall k, k < i -> isRadio d (childRef par k) = false).
Proof.
  intros Hn d par i. subst d par i.
  split; [reflexivity|]. split; [reflexivity|].
  split; [|split; [|split]].
  - intros m. split; [apply nextRadioOf_some, Hn|].
    intros Hm. destruct (nextRadioOf (dom s) n) as [m'|] eqn:E.
    + f_equal. eapply nearestAfter_unique; [|exact Hm].
      apply nextRadioOf_some; assumption.
    + destruct Hm as (j & -> & Hj & Hr & _).
      rewrite (nextRadioOf_none _ _ j Hn E Hj) in Hr. discriminate.
  - split.
    + intros E k Hk. apply nextRadioOf_none; assumption.
    + intros H. destruct (nextRadioOf (dom s) n) as [m|] eqn:E; [|reflexivity].
      apply nextRadioOf_some in E as (j & -> & Hj & Hr & _); [|exact Hn].
      rewrite (H j Hj) in Hr. discriminate.
  - intros m. split; [apply prevRadioOf_some, Hn|].
    intros Hm. destruct (prevRadioOf (dom s) n) as [m'|] eqn:E.
    + f_equal. eapply nearestBefore_unique; [|exact Hm].
      apply prevRadioOf_some; assumption.
    + destruct Hm as (j & -> & Hj & Hr & _).
      rewrite (prevRadioOf_none _ _ j Hn E Hj) in Hr. discriminate.
  - split.
    + intros E k Hk. apply prevRadioOf_none; assumption.
    + intros H. destruct (prevRadioOf (dom s) n) as [m|] eqn:E; [|reflexivity].
      apply prevRadioOf_some in E as (j & -> & Hj & Hr & _); [|exact Hn].
      rewrite (H j Hj) in Hr. discriminate.
Qed.

Lemma sibling_walks_find_nearest_radio_witness :
  [0] <> [] /\
  _nextRadioButton (Some [0]) (initial labelled)
  = (Normal (Some [3]), initial labelled).
Proof.
  assert (H : [0] <> ([] : NodeRef)) by discriminate.
  split.
  - exact H.
  - exact (proj1 (sibling_walks_find_nearest_radio (initial labelled) [0] H)).
Defined.

(* ================================================================== *)
(** ** Attaching the group *)

(** Trees are determined by the attributes at their references. *)
Lemma element_ext : forall d1 d2,
  (forall p, attrsAt d1 p = attrsAt d2 p) -> d1 = d2.
Proof.
  induction d1 as [a ks IH] using Element_ind'. intros [b ks'] H.
  assert (Hab : a = b).
  { specialize (H []). unfold attrsAt in H. simpl in H. congruence. }
  subst b. f_equal. apply nth_error_ext. intros i.
  pose proof (H [i]) as Hi. unfold attrsAt in Hi. simpl in Hi.
  destruct (nth_error ks i) as [k|] eqn:Ek;
    destruct (nth_error ks' i) as [k'|] eqn:Ek'; try discriminate;
    [|reflexivity].
  f_equal. rewrite Forall_forall in IH.
  apply (IH k (nth_error_In _ _ Ek)). intros p.
  specialize (H (i :: p)). unfold attrsAt in H. simpl in H.
  rewrite Ek, Ek' in H. exact H.
Qed.

Lemma descendants_hostDom d : descendants (hostDom d) = descendants d.
Proof. apply descendants_updateAt. Qed.

Lemma attrsAt_hostDom d p :
  p <> [] -> attrsAt (hostDom d) p = attrsAt d p.
Proof.
  intros H. unfold hostDom. rewrite attrsAt_updateAt.
  rewrite nodeEqb_neq by congruence. reflexivity.
Qed.

Lemma in_descendants_nonnil d p : In p (descendants d) -> p <> [].
Proof. rewrite in_descendants. tauto. Qed.

Lemma isRadio_hostDom d p : p <> [] -> isRadio (hostDom d) p = isRadio d p.
Proof. intros H. unfold isRadio. rewrite attrsAt_hostDom by exact H. reflexivity. Qed.

Lemma isSelected_hostDom d p :
  p <> [] -> isSelected (hostDom d) p = isSelected d p.
Proof. intros H. unfold isSelected. rewrite attrsAt_hostDom by exact H. reflexivity. Qed.

Lemma isFocusable_hostDom d p :
  p <> [] -> isFocusable (hostDom d) p = isFocusable d p.
Proof. intros H. unfold isFocusable. rewrite attrsAt_hostDom by exact H. reflexivity. Qed.

Lemma find_ext_in {A} (f g : A -> bool) l :
  (forall x, In x l -> f x = g x) -> find f l = find g l.
Proof.
  induction l as [|x l IH]; intros H; simpl; [reflexivity|].
  rewrite (H x) by (left; reflexivity).
  destruct (g x); [reflexivity|]. apply IH. intros y Hy. apply H. right. exact Hy.
Qed.

Lemma items_hostDom d : items (hostDom d) = items d.
Proof.
  unfold items, querySelectorAll. rewrite descendants_hostDom.
  apply filter_ext_in. intros p Hp.
  apply isRadio_hostDom, (in_descendants_nonnil d), Hp.
Qed.

Lemma isItem_hostDom d p : isItem (hostDom d) p = isItem d p.
Proof. unfold isItem. rewrite items_hostDom. reflexivity. Qed.

Lemma checked_hostDom d :
  querySelector isSelected (hostDom d) = querySelector isSelected d.
Proof.
  unfold querySelector. rewrite descendants_hostDom.
  apply find_ext_in. intros p Hp.
  apply isSelected_hostDom, (in_descendants_nonnil d), Hp.
Qed.

Lemma firstItem_hostDom d :
  querySelector isRadio (hostDom d) = querySelector isRadio d.
Proof.
  unfold querySelector. rewrite descendants_hostDom.
  apply find_ext_in. intros p Hp.
  apply isRadio_hostDom, (in_descendants_nonnil d), Hp.
Qed.

Lemma selectedItems_hostDom d : selectedItems (hostDom d) = selectedItems d.
Proof.
  unfold selectedItems. rewrite items_hostDom.
  apply filter_ext_in. intros p Hp. apply in_items in Hp as [Hp _].
  apply isSelected_hostDom, (in_descendants_nonnil d), Hp.
Qed.

(** The three ways [connectedCallback] can go. *)
Lemma connected_checked s c :
  querySelector isSelected (dom s) = Some c ->
  connectedCallback s =
  (Normal tt,
   mkState (checkNode c (uncheckAllDom (hostDom (dom s)))) true true
           (trace s ++ [SetRole [] "radiogroup"]
                    ++ flat_map clearTrace (items (dom s))
                    ++ checkTrace c
                    ++ [AddEventListener "keydown"; AddEventListener "click"])).
Proof.
  intros H. unfold connectedCallback, bind at 1, setRole, write.
  unfold bind at 1, checkedRadioButton, gets.
  cbn [dom keydownListener clickListener trace]. fold (hostDom (dom s)).
  rewrite checked_hostDom, H.
  unfold bind at 1. unfold bind at 1. rewrite uncheckAll_run, checkNode_run.
  cbn [dom keydownListener clickListener trace].
  unfold bind, addEventListener.
  cbn [dom keydownListener clickListener trace String.eqb].
  rewrite items_hostDom, !orb_true_r, <- !app_assoc. reflexivity.
Qed.

Lemma connected_unchecked s f :
  querySelector isSelected (dom s) = None ->
  querySelector isRadio (dom s) = Some f ->
  connectedCallback s =
  (Normal tt,
   mkState (updateAt (withTabindex 0) f (hostDom (dom s))) true true
           (trace s ++ [SetRole [] "radiogroup"; SetTabindex f 0;
                        AddEventListener "keydown"; AddEventListener "click"])).
Proof.
  intros H Hf. unfold connectedCallback, bind at 1, setRole, write.
  unfold bind at 1, checkedRadioButton, gets.
  cbn [dom keydownListener clickListener trace]. fold (hostDom (dom s)).
  rewrite checked_hostDom, H.
  unfold bind, gets. cbn [dom]. rewrite firstItem_hostDom, Hf.
  unfold deref, ret, setTabindex, write, addEventListener.
  cbn [dom keydownListener clickListener trace String.eqb].
  rewrite !orb_true_r, <- !app_assoc. reflexivity.
Qed.

Lemma connected_empty s :
  querySelector isSelected (dom s) = None ->
  querySelector isRadio (dom s) = None ->
  connectedCallback s =
  (Throw TypeError,
   mkState (hostDom (dom s)) (keydownListener s) (clickListener s)
           (trace s ++ [SetRole [] "radiogroup"])).
Proof.
  intros H Hf. unfold connectedCallback, bind at 1, setRole, write.
  unfold bind at 1, checkedRadioButton, gets.
  cbn [dom keydownListener clickListener trace]. fold (hostDom (dom s)).
  rewrite checked_hostDom, H.
  unfold bind, gets. cbn [dom]. rewrite firstItem_hostDom, Hf.
  reflexivity.
Qed.

Lemma find_hd_filter {A} (f : A -> bool) l : find f l = hd_error (filter f l).
Proof.
  induction l as [|x l IH]; simpl; [reflexivity|].
  destruct (f x); [reflexivity|exact IH].
Qed.

Lemma filter_nil_find {A} (f : A -> bool) l : filter f l = [] -> find f l = None.
Proof. intros H. rewrite find_hd_filter, H. reflexivity. Qed.

Lemma filter_filter_in {A} (f g : A -> bool) l :
  (forall x, In x l -> f x = true -> g x = true) ->
  filter f (filter g l) = filter f l.
Proof.
  induction l as [|x l IH]; intros H; simpl; [reflexivity|].
  assert (IH' : filter f (filter g l) = filter f l).
  { apply IH. intros y Hy. apply H. right. exact Hy. }
  destruct (g x) eqn:Eg; simpl.
  - rewrite IH'. reflexivity.
  - destruct (f x) eqn:Ef; [|exact IH'].
    rewrite (H x (or_introl eq_refl) Ef) in Eg. discriminate.
Qed.

Lemma find_some_stable {A} (f g : A -> bool) l c :
  find f l = Some c -> g c = true ->
  (forall x, In x l -> x <> c -> g x = true -> f x = true) ->
  find g l = Some c.
Proof.
  induction l as [|x l IH]; intros Hf Hg H; simpl in *; [discriminate|].
  destruct (f x) eqn:Ef.
  - injection Hf as ->. rewrite Hg. reflexivity.
  - assert (Hfc : f c = true) by (apply find_some in Hf; tauto).
    assert (Hne : x <> c) by (intros ->; congruence).
    destruct (g x) eqn:Eg.
    + rewrite (H x (or_introl eq_refl) Hne Eg) in Ef. discriminate.
    + apply IH; auto.
Qed.

Lemma items_nil_no_first d : items d = [] -> querySelector isRadio d = None.
Proof. apply filter_nil_find. Qed.

Lemma checked_is_first_selected d :
  onlyItemsChecked d -> querySelector isSelected d = hd_error (selectedItems d).
Proof.
  intros H. unfold querySelector, selectedItems, items, querySelectorAll.
  rewrite filter_filter_in by exact H. apply find_hd_filter.
Qed.

Lemma first_is_hd_items d : querySelector isRadio d = hd_error (items d).
Proof. apply find_hd_filter. Qed.

(** C4, as the code has it.  Attaching a group that has no candidate item,
    and in which nothing carries [aria-checked="true"] (a group without
    children, say), does not complete normally: the query for the first
    item answers [null] and setting [tabindex] on it throws a [TypeError].
    No attribute of any descendant has been written by then, no item is
    focusable, and the two listeners are not registered; only the host's
    own [role] has been set. *)
Theorem attach_empty_group_throws (s : State) :
  items (dom s) = [] ->
  querySelector isSelected (dom s) = None ->
  let s' := exec connectedCallback s in
  outcome connectedCallback s = Throw TypeError /\
  (forall p, p <> [] -> attrsAt (dom s') p = attrsAt (dom s) p) /\
  focusableItems (dom s') = [] /\
  keydownListener s' = keydownListener s /\
  clickListener s' = clickListener s /\
  trace s' = trace s ++ [SetRole [] "radiogroup"].
Proof.
  intros Hi Hc s'. subst s'. unfold exec, outcome.
  rewrite (connected_empty s Hc (items_nil_no_first _ Hi)).
  cbn [fst snd dom keydownListener clickListener trace].
  split; [reflexivity|]. split; [intros p Hp; apply attrsAt_hostDom, Hp|].
  split; [|repeat split].
  unfold focusableItems. rewrite items_hostDom, Hi. reflexivity.
Qed.

Lemma attach_empty_group_throws_witness :
  items (dom (initial (group []))) = [] /\
  querySelector isSelected (dom (initial (group []))) = None /\
  outcome connectedCallback (initial (group [])) = Throw TypeError.
Proof.
  assert (Hi : items (dom (initial (group []))) = []) by reflexivity.
  assert (Hc : querySelector isSelected (dom (initial (group []))) = None)
    by reflexivity.
  split; [exact Hi|]. split; [exact Hc|].
  exact (proj1 (attach_empty_group_throws (initial (group [])) Hi Hc)).
Defined.

(** C4 as stated fails: attaching the empty group throws. *)
Lemma attach_empty_group_counterexample :
  items (group []) = [] /\
  outcome connectedCallback (initial (group [])) = Throw TypeError /\
  outcome connectedCallback (initial (group [])) <> Normal tt /\
  keydownListener (exec connectedCallback (initial (group []))) = false.
Proof.
  split; [reflexivity|]. split; [reflexivity|]. split; [discriminate|].
  reflexivity.
Qed.

(** C2 fails on the code.  With nothing checked, [connectedCallback] makes
    the first button focusable and does not touch the others, so a button
    that already had [tabindex="0"] stays a second tab stop. *)
Theorem attach_leaves_two_focusable :
  let s := exec connectedCallback (initial twoTabStops) in
  outcome connectedCallback (initial twoTabStops) = Normal tt /\
  items (dom s) = [[0]; [1]] /\
  selectedItems (dom s) = [] /\
  focusableItems (dom s) = [[0]; [1]].
Proof. vm_compute. repeat split; reflexivity. Qed.

Lemma isRadio_setTab z f d p :
  isRadio (updateAt (withTabindex z) f d) p = isRadio d p.
Proof.
  unfold isRadio. rewrite attrsAt_updateAt.
  destruct (nodeEqb f p), (attrsAt d p); reflexivity.
Qed.

Lemma isSelected_setTab z f d p :
  isSelected (updateAt (withTabindex z) f d) p = isSelected d p.
Proof.
  unfold isSelected. rewrite attrsAt_updateAt.
  destruct (nodeEqb f p), (attrsAt d p); reflexivity.
Qed.

Lemma items_setTab z f d : items (updateAt (withTabindex z) f d) = items d.
Proof.
  apply items_ext; [apply descendants_updateAt|apply isRadio_setTab].
Qed.

Lemma selectedItems_setTab z f d :
  selectedItems (updateAt (withTabindex z) f d) = selectedItems d.
Proof.
  unfold selectedItems. rewrite items_setTab.
  apply filter_ext. intros p. apply isSelected_setTab.
Qed.

Lemma checked_setTab z f d :
  querySelector isSelected (updateAt (withTabindex z) f d)
  = querySelector isSelected d.
Proof.
  unfold querySelector. rewrite descendants_updateAt.
  apply find_ext_in. intros p _. apply isSelected_setTab.
Qed.

Lemma firstItem_setTab z f d :
  querySelector isRadio (updateAt (withTabindex z) f d)
  = querySelector isRadio d.
Proof.
  unfold querySelector. rewrite descendants_updateAt.
  apply find_ext_in. intros p _. apply isRadio_setTab.
Qed.

Lemma radio_has_attrs d p : isRadio d p = true -> attrsAt d p <> None.
Proof. unfold isRadio. destruct (attrsAt d p); [discriminate|discriminate]. Qed.

(** C6 as stated fails: the third child is a selected item, yet after the
    attach no item is selected or focusable, that one included; the flags
    went to the [div]. *)
Lemma attach_normalises_counterexample :
  let d := strayChecked in
  let s := exec connectedCallback (initial d) in
  items d = [[1]; [2]] /\
  selectedItems d = [[2]] /\
  outcome connectedCallback (initial d) = Normal tt /\
  selectedItems (dom s) = [] /\
  focusableItems (dom s) = [] /\
  isSelected (dom s) [2] = false /\
  isFocusable (dom s) [0] = true.
Proof. vm_compute. repeat split; reflexivity. Qed.

(** C6, as the code has it.  Take a group with at least one item in which
    only items carry [aria-checked="true"].  [connectedCallback] completes
    normally and keeps the items.  If some item is selected, then afterwards
    the first selected item in document order is the one selected item and
    the one focusable item: every other item has lost both flags.  If no
    item is selected, the first item gets [tabindex=0], no other descendant
    is written, and still no item is selected. *)
Theorem attach_normalises (s : State) :
  items (dom s) <> [] ->
  onlyItemsChecked (dom s) ->
  let s' := exec connectedCallback s in
  outcome connectedCallback s = Normal tt /\
  items (dom s') = items (dom s) /\
  (forall c rest, selectedItems (dom s) = c :: rest ->
     selectedItems (dom s') = [c] /\ focusableItems (dom s') = [c]) /\
  (selectedItems (dom s) = [] ->
     exists first rest, items (dom s) = first :: rest /\
       isFocusable (dom s') first = true /\
       attrsAt (dom s') first
       = option_map (withTabindex 0) (attrsAt (dom s) first) /\
       (forall p, p <> [] -> p <> first ->
                  attrsAt (dom s') p = attrsAt (dom s) p) /\
       selectedItems (dom s') = []).
Proof.
  intros Hne Honly s'. subst s'. unfold exec, outcome.
  pose proof (checked_is_first_selected _ Honly) as Hc.
  destruct (selectedItems (dom s)) as [|c rest] eqn:Esel; cbn [hd_error] in Hc.
  - (* nothing selected *)
    destruct (items (dom s)) as [|first rest] eqn:Eit; [contradiction|].
    assert (Hf : querySelector isRadio (dom s) = Some first).
    { rewrite first_is_hd_items, Eit. reflexivity. }
    rewrite (connected_unchecked s first Hc Hf). cbn [fst snd dom].
    assert (Hin : In first (items (dom s))) by (rewrite Eit; left; reflexivity).
    apply in_items in Hin as [Hdesc Hrad].
    pose proof (in_descendants_nonnil _ _ Hdesc) as Hnn.
    pose proof (radio_has_attrs _ _ Hrad) as Hattrs.
    split; [reflexivity|]. split.
    { rewrite items_setTab, items_hostDom. exact Eit. }
    split; [intros c rest' H; discriminate H|].
    intros _. exists first, rest. split; [reflexivity|].
    assert (Hat : attrsAt (updateAt (withTabindex 0) first (hostDom (dom s))) first
                  = option_map (withTabindex 0) (attrsAt (dom s) first)).
    { rewrite attrsAt_updateAt, nodeEqb_refl, attrsAt_hostDom by exact Hnn.
      reflexivity. }
    split.
    { unfold isFocusable. rewrite Hat.
      destruct (attrsAt (dom s) first); [reflexivity|contradiction]. }
    split; [exact Hat|]. split.
    { intros p Hp Hpf. rewrite attrsAt_updateAt, nodeEqb_neq by congruence.
      apply attrsAt_hostDom, Hp. }
    rewrite selectedItems_setTab, selectedItems_hostDom. exact Esel.
  - (* the first selected item *)
    rewrite (connected_checked s c Hc). cbn [fst snd dom].
    assert (Hitem : isItem (hostDom (dom s)) c = true).
    { rewrite isItem_hostDom. apply isItem_in.
      assert (H : In c (selectedItems (dom s))) by (rewrite Esel; left; reflexivity).
      unfold selectedItems in H. apply filter_In in H. tauto. }
    split; [reflexivity|]. split.
    { rewrite items_checkNode, items_uncheckAllDom, items_hostDom. reflexivity. }
    split.
    { intros c' rest' [= <- <-].
      rewrite selectedItems_after_select, focusableItems_after_select, Hitem.
      split; reflexivity. }
    intros H. discriminate H.
Qed.

Lemma attach_normalises_witness :
  items (dom (initial twoChecked)) <> [] /\
  onlyItemsChecked (dom (initial twoChecked)) /\
  selectedItems (dom (initial twoChecked)) = [1] :: [[2]] /\
  selectedItems (dom (exec connectedCallback (initial twoChecked))) = [[1]] /\
  focusableItems (dom (exec connectedCallback (initial twoChecked))) = [[1]].
Proof.
  assert (Hne : items (dom (initial twoChecked)) <> []) by discriminate.
  assert (Honly : onlyItemsChecked (dom (initial twoChecked))).
  { intros p Hp _. simpl in Hp.
    destruct Hp as [<-|[<-|[<-|[]]]]; reflexivity. }
  assert (Hsel : selectedItems (dom (initial twoChecked)) = [1] :: [[2]])
    by reflexivity.
  split; [exact Hne|]. split; [exact Honly|]. split; [exact Hsel|].
  exact (proj1 (proj2 (proj2
           (attach_normalises (initial twoChecked) Hne Honly))) [1] [[2]] Hsel).
Defined.

Lemma hostDom_idem d : hostDom (hostDom d) = hostDom d.
Proof. destruct d as [a kids]. reflexivity. Qed.

Lemma attrsAt_root_hostDom d :
  attrsAt (hostDom d) [] = option_map (withRole "radiogroup") (attrsAt d []).
Proof. unfold hostDom. rewrite attrsAt_updateAt, nodeEqb_refl. reflexivity. Qed.

Lemma isItem_nonnil d p : isItem d p = true -> p <> [].
Proof.
  rewrite isItem_in, in_items. intros [H _].
  exact (in_descendants_nonnil _ _ H).
Qed.

(** Attaching again a group attached with a checked node [c]: the same node
    is found, and the writes repeat what is already there. *)
Lemma reattach_checked d c :
  In c (descendants d) ->
  querySelector isSelected d = Some c ->
  let d1 := checkNode c (uncheckAllDom (hostDom d)) in
  querySelector isSelected d1 = Some c /\
  checkNode c (uncheckAllDom (hostDom d1)) = d1.
Proof.
  intros Hc Hq d1.
  pose proof (in_descendants_nonnil _ _ Hc) as Hcn.
  assert (Hcv : attrsAt d c <> None).
  { apply in_descendants in Hc as [_ Hc]. unfold attrsAt.
    destruct (nodeAt d c); [discriminate|contradiction]. }
  assert (Hitems : items d1 = items d).
  { subst d1. rewrite items_checkNode, items_uncheckAllDom, items_hostDom.
    reflexivity. }
  assert (Hat : forall p, p <> [] ->
            attrsAt d1 p =
            if nodeEqb c p then option_map checked (attrsAt d p)
            else if isItem d p then option_map cleared (attrsAt d p)
                 else attrsAt d p).
  { intros p Hp. subst d1.
    rewrite attrsAt_checkNode, attrsAt_uncheckAllDom, isItem_hostDom,
      attrsAt_hostDom by exact Hp.
    destruct (nodeEqb c p), (isItem d p), (attrsAt d p); reflexivity. }
  split.
  - unfold querySelector in *.
    replace (descendants d1) with (descendants d)
      by (subst d1; rewrite descendants_checkNode, descendants_uncheckAllDom,
            descendants_hostDom; reflexivity).
    apply (find_some_stable (isSelected d)); [exact Hq| |].
    + unfold isSelected. rewrite (Hat c Hcn), nodeEqb_refl.
      destruct (attrsAt d c); [reflexivity|contradiction].
    + intros p Hp Hne. unfold isSelected.
      rewrite (Hat p (in_descendants_nonnil _ _ Hp)).
      rewrite nodeEqb_neq by congruence.
      destruct (isItem d p), (attrsAt d p); simpl; congruence.
  - apply element_ext. intros p.
    assert (HisItem : isItem d1 p = isItem d p).
    { unfold isItem. rewrite Hitems. reflexivity. }
    rewrite attrsAt_checkNode, attrsAt_uncheckAllDom, isItem_hostDom, HisItem.
    clear HisItem. destruct p as [|i p].
    + rewrite (nodeEqb_neq c []) by exact Hcn.
      assert (Hni : isItem d [] = false).
      { destruct (isItem d []) eqn:E; [|reflexivity].
        apply isItem_nonnil in E. contradiction. }
      rewrite Hni, attrsAt_root_hostDom. subst d1.
      rewrite attrsAt_checkNode, attrsAt_uncheckAllDom, isItem_hostDom, Hni,
        (nodeEqb_neq c []), attrsAt_root_hostDom by exact Hcn.
      destruct (attrsAt d []); reflexivity.
    + rewrite attrsAt_hostDom by discriminate.
      rewrite (Hat (i :: p)) by discriminate.
      destruct (nodeEqb c (i :: p)), (isItem d (i :: p)), (attrsAt d (i :: p));
        reflexivity.
Qed.

Lemma reattach_unchecked d f :
  updateAt (withTabindex 0) f
           (hostDom (updateAt (withTabindex 0) f (hostDom d)))
  = updateAt (withTabindex 0) f (hostDom d).
Proof.
  apply element_ext. intros p.
  rewrite !attrsAt_updateAt.
  destruct p as [|i p].
  - rewrite !attrsAt_root_hostDom, attrsAt_updateAt, attrsAt_root_hostDom.
    destruct (nodeEqb f []), (attrsAt d []); reflexivity.
  - rewrite (attrsAt_hostDom _ (i :: p)) by discriminate.
    rewrite attrsAt_updateAt.
    destruct (nodeEqb f (i :: p)), (attrsAt (hostDom d) (i :: p)); reflexivity.
Qed.

(** C7.  Attaching twice in a row gives the tree, hence every selection and
    focus flag, that attaching once gives; the second call also ends as the
    first did (normally, or with the same error) and leaves the listener
    registrations as the first left them. *)
Theorem attach_idempotent (s : State) :
  let s1 := exec connectedCallback s in
  let s2 := exec connectedCallback s1 in
  dom s2 = dom s1 /\
  outcome connectedCallback s1 = outcome connectedCallback s /\
  keydownListener s2 = keydownListener s1 /\
  clickListener s2 = clickListener s1.
Proof.
  intros s1 s2. subst s2 s1. unfold exec, outcome.
  destruct (querySelector isSelected (dom s)) as [c|] eqn:Ec.
  - rewrite (connected_checked s c Ec). cbn [fst snd].
    assert (Hc : In c (descendants (dom s))).
    { unfold querySelector in Ec. apply find_some in Ec. tauto. }
    destruct (reattach_checked (dom s) c Hc Ec) as [Hq Hd].
    rewrite (connected_checked _ c) by (cbn [dom]; exact Hq).
    cbn [fst snd dom keydownListener clickListener].
    rewrite Hd. repeat split.
  - destruct (querySelector isRadio (dom s)) as [f|] eqn:Ef.
    + rewrite (connected_unchecked s f Ec Ef). cbn [fst snd].
      rewrite (connected_unchecked _ f).
      * cbn [fst snd dom keydownListener clickListener].
        rewrite reattach_unchecked. repeat split.
      * cbn [dom]. rewrite checked_setTab, checked_hostDom. exact Ec.
      * cbn [dom]. rewrite firstItem_setTab, firstItem_hostDom. exact Ef.
    + rewrite (connected_empty s Ec Ef). cbn [fst snd].
      rewrite connected_empty.
      * cbn [fst snd dom keydownListener clickListener].
        rewrite hostDom_idem. repeat split.
      * cbn [dom]. rewrite checked_hostDom. exact Ec.
      * cbn [dom]. rewrite firstItem_hostDom. exact Ef.
Qed.

(* ================================================================== *)
(** ** Wrapping around *)

(** C5 as stated fails: two items, the last one checked, and a third [div]
    that is no candidate.  No [div] with role [radio] is the last of its
    type, so [lastRadioButton] is [null]; the next-key path then walks the
    siblings after the last item, finds none and hands [null] to
    [_setChecked], which has unchecked everything when it throws. *)
Lemma wrap_around_counterexample :
  let d := trailingDiv in
  let s := exec _setCheckedToNextButton (initial d) in
  items d = [[0]; [1]] /\
  currentItem d = Some [1] /\
  outcome _setCheckedToNextButton (initial d) = Throw TypeError /\
  selectedItems (dom s) = [] /\
  isSelected (dom s) [0] = false /\
  focusRequests (trace s) = [].
Proof. vm_compute. repeat split; reflexivity. Qed.

Lemma filter_len1_map_cons i (l : list NodeRef) :
  ~ In [] l -> filter (fun p => length p =? 1) (map (cons i) l) = [].
Proof.
  intros H. apply filter_none. intros x Hx.
  apply in_map_iff in Hx as (y & <- & Hy).
  destruct y as [|j y]; [contradiction|reflexivity].
Qed.

Lemma filter_len1_number : forall ds i,
  Forall (fun d : list NodeRef => ~ In [] d) ds ->
  filter (fun p => length p =? 1) (number i ds) = map single (seq i (length ds)).
Proof.
  induction ds as [|d ds IH]; intros i H; simpl; [reflexivity|].
  inversion H as [|? ? Hd Hds]; subst.
  rewrite filter_app, filter_len1_map_cons by exact Hd. simpl.
  rewrite IH by exact Hds. reflexivity.
Qed.

Lemma children_in_order d :
  filter (fun p => length p =? 1) (descendants d)
  = map single (seq 0 (childCount d [])).
Proof.
  destruct d as [a kids]. unfold childCount. simpl.
  rewrite filter_len1_number.
  - rewrite length_map. reflexivity.
  - apply Forall_map, Forall_forall. intros k _.
    rewrite in_descendants. tauto.
Qed.

Lemma filter_map_comm {A B} (f : B -> bool) (g : A -> B) l :
  filter f (map g l) = map g (filter (fun x => f (g x)) l).
Proof.
  induction l as [|x l IH]; simpl; [reflexivity|].
  rewrite IH. destruct (f (g x)); reflexivity.
Qed.

(** In a uniform group the items are the children with role [radio], by
    increasing index. *)
Lemma uniform_items T d :
  uniformGroup T d = true ->
  items d = map single (filter (fun i => isRadio d [i])
                               (seq 0 (childCount d []))).
Proof.
  unfold uniformGroup. rewrite andb_true_iff. intros [H1 _].
  rewrite forallb_forall in H1.
  unfold items, querySelectorAll.
  rewrite <- (filter_filter_in (isRadio d) (fun p => length p =? 1)).
  - rewrite children_in_order, filter_map_comm. reflexivity.
  - intros p Hp Hr. apply H1. apply filter_In. split; assumption.
Qed.

Lemma uniform_sameTag T d i j :
  uniformGroup T d = true ->
  isRadio d [i] = true ->
  sameTag d [j] [i] = isRadio d [j].
Proof.
  unfold uniformGroup. rewrite andb_true_iff. intros [_ H2] Hi.
  rewrite forallb_forall in H2.
  unfold sameTag, isRadio, attrsAt in *. simpl in *.
  destruct (nth_error (childrenOf d) i) as [ki|] eqn:Ei; [|discriminate].
  destruct (nth_error (childrenOf d) j) as [kj|] eqn:Ej; [|reflexivity].
  simpl in *.
  pose proof (H2 ki (nth_error_In _ _ Ei)) as Hki.
  pose proof (H2 kj (nth_error_In _ _ Ej)) as Hkj.
  rewrite Hi in Hki. apply eqb_prop in Hki, Hkj. symmetry in Hki.
  apply String.eqb_eq in Hki. rewrite Hki, <- Hkj. reflexivity.
Qed.

Lemma forallb_pointwise {A} (f g : A -> bool) l :
  (forall x, f x = g x) -> forallb f l = forallb g l.
Proof.
  intros H. induction l as [|x l IH]; simpl; [reflexivity|].
  rewrite H, IH. reflexivity.
Qed.

Lemma uniform_firstOfType T d i :
  uniformGroup T d = true ->
  isRadio d [i] = true ->
  firstOfType d [i] = forallb (fun j => negb (isRadio d [j])) (seq 0 i).
Proof.
  intros HU Hi. unfold firstOfType, parentRef, indexOf, childRef. simpl.
  apply forallb_pointwise. intros j. rewrite (uniform_sameTag T) by assumption.
  reflexivity.
Qed.

Lemma uniform_lastOfType T d i :
  uniformGroup T d = true ->
  isRadio d [i] = true ->
  lastOfType d [i] =
  forallb (fun j => negb (isRadio d [j]))
          (seq (S i) (childCount d [] - S i)).
Proof.
  intros HU Hi. unfold lastOfType, parentRef, indexOf, childRef. simpl.
  apply forallb_pointwise. intros j. rewrite (uniform_sameTag T) by assumption.
  reflexivity.
Qed.

Lemma filter_seq_head (r : nat -> bool) : forall n a i0 rest,
  filter r (seq a n) = i0 :: rest ->
  r i0 = true /\ a <= i0 /\ forall j, a <= j < i0 -> r j = false.
Proof.
  induction n as [|n IH]; intros a i0 rest H; simpl in H; [discriminate|].
  destruct (r a) eqn:E.
  - injection H as <- _. split; [exact E|]. split; [lia|]. intros j Hj. lia.
  - apply IH in H as (Hr & Hle & Hj). split; [exact Hr|]. split; [lia|].
    intros j Hj'. destruct (Nat.eq_dec j a) as [->|Hne]; [exact E|].
    apply Hj. lia.
Qed.

Lemma filter_seq_last (r : nat -> bool) a : forall n xs l,
  filter r (seq a n) = xs ++ [l] ->
  r l = true /\ a <= l < a + n /\
  (forall j, l < j < a + n -> r j = false) /\
  (forall x, In x xs -> r x = true /\ x < l).
Proof.
  induction n as [|n IH]; intros xs l H.
  - simpl in H. destruct xs; discriminate.
  - rewrite seq_S, filter_app in H. simpl in H.
    destruct (r (a + n)) eqn:E.
    + apply app_inj_tail in H as [<- <-].
      split; [exact E|]. split; [lia|]. split; [intros j Hj; lia|].
      intros x Hx. apply filter_In in Hx as [Hx Hr]. apply in_seq in Hx.
      split; [exact Hr|lia].
    + rewrite app_nil_r in H. apply IH in H as (Hr & Hl & Hj & Hx).
      split; [exact Hr|]. split; [lia|]. split; [|exact Hx].
      intros j Hj'. destruct (Nat.eq_dec j (a + n)) as [->|Hne]; [exact E|].
      apply Hj. lia.
Qed.

Lemma find_andb_filter {A} (f g : A -> bool) l :
  find (fun x => f x && g x) l = find g (filter f l).
Proof.
  induction l as [|x l IH]; simpl; [reflexivity|].
  destruct (f x); simpl; [|exact IH].
  destruct (g x); [reflexivity|exact IH].
Qed.

Lemma find_last {A} (g : A -> bool) ys z :
  (forall y, In y ys -> g y = false) -> g z = true ->
  find g (ys ++ [z]) = Some z.
Proof.
  intros Hy Hz. induction ys as [|y ys IH]; simpl.
  - rewrite Hz. reflexivity.
  - rewrite (Hy y) by (left; reflexivity). apply IH.
    intros y' Hy'. apply Hy. right. exact Hy'.
Qed.

(** In a uniform group [firstRadioButton] is the first item... *)
Lemma uniform_firstRadioButton T d :
  uniformGroup T d = true ->
  querySelector (fun d n => isRadio d n && firstOfType d n) d
  = hd_error (items d).
Proof.
  intros HU. unfold querySelector. rewrite find_andb_filter.
  fold (querySelectorAll isRadio d). fold (items d).
  rewrite (uniform_items T d HU).
  destruct (filter _ (seq 0 (childCount d []))) as [|i0 rest] eqn:E;
    [reflexivity|].
  apply filter_seq_head in E as (Hr & _ & Hj).
  cbn [map find hd_error]. unfold single at 1.
  rewrite (uniform_firstOfType T) by assumption.
  replace (forallb _ (seq 0 i0)) with true; [reflexivity|].
  symmetry. apply forallb_forall. intros j Hj'. apply in_seq in Hj'.
  rewrite Hj by lia. reflexivity.
Qed.

(** ... and [lastRadioButton] is the last one. *)
Lemma uniform_lastRadioButton T d xs l :
  uniformGroup T d = true ->
  items d = xs ++ [l] ->
  querySelector (fun d n => isRadio d n && lastOfType d n) d = Some l.
Proof.
  intros HU Hit. unfold querySelector. rewrite find_andb_filter.
  fold (querySelectorAll isRadio d). fold (items d).
  rewrite Hit. rewrite (uniform_items T d HU) in Hit.
  destruct (exists_last (l := filter (fun i => isRadio d [i])
                                     (seq 0 (childCount d []))))
    as (xs' & l' & E).
  { intros E. rewrite E in Hit. destruct xs; discriminate. }
  rewrite E, map_app in Hit. cbn [map] in Hit.
  apply app_inj_tail in Hit as [<- <-].
  apply filter_seq_last in E as (Hr & Hl & Hj & Hx).
  apply find_last.
  - intros y Hy. apply in_map_iff in Hy as (x & <- & Hx').
    destruct (Hx x Hx') as [Hrx Hlt]. unfold single.
    rewrite (uniform_lastOfType T) by assumption.
    apply not_true_is_false. intros Hall.
    rewrite forallb_forall in Hall.
    specialize (Hall l'). rewrite Hr in Hall.
    assert (Hin : In l' (seq (S x) (childCount d [] - S x))).
    { apply in_seq. lia. }
    specialize (Hall Hin). discriminate.
  - unfold single. rewrite (uniform_lastOfType T) by assumption.
    apply forallb_forall. intros j Hj'. apply in_seq in Hj'.
    rewrite Hj by lia. reflexivity.
Qed.

Lemma checkedOrFirst_run s : checkedOrFirst s = (Normal (currentItem (dom s)), s).
Proof.
  unfold checkedOrFirst, currentItem, checkedRadioButton, firstRadioButton,
    bind, gets, ret, orElse.
  destruct (querySelector isSelected (dom s)); reflexivity.
Qed.

Lemma focusRequests_app t u :
  focusRequests (t ++ u) = focusRequests t ++ focusRequests u.
Proof.
  induction t as [|e t IH]; simpl; [reflexivity|].
  destruct e; simpl; rewrite IH; reflexivity.
Qed.

Lemma focusRequests_clear l : focusRequests (flat_map clearTrace l) = [].
Proof. induction l as [|x l IH]; simpl; [reflexivity|exact IH]. Qed.

(** What selecting an item leaves behind. *)
Lemma setChecked_item s n :
  In n (items (dom s)) ->
  outcome (_setChecked (Some n)) s = Normal tt /\
  selectedItems (dom (exec (_setChecked (Some n)) s)) = [n] /\
  focusableItems (dom (exec (_setChecked (Some n)) s)) = [n] /\
  focusRequests (trace (exec (_setChecked (Some n)) s))
  = focusRequests (trace s) ++ [n].
Proof.
  intros H. apply isItem_in in H. unfold outcome, exec.
  rewrite setChecked_run. cbn [fst snd dom trace].
  rewrite selectedItems_after_select, focusableItems_after_select, H.
  rewrite !focusRequests_app, focusRequests_clear. repeat split.
Qed.

Lemma next_wraps s T first mid mid' lst :
  uniformGroup T (dom s) = true ->
  items (dom s) = first :: mid ->
  items (dom s) = mid' ++ [lst] ->
  currentItem (dom s) = Some lst ->
  _setCheckedToNextButton s = _setChecked (Some first) s.
Proof.
  intros HU Hf Hl Hc. unfold _setCheckedToNextButton, bind.
  rewrite checkedOrFirst_run, Hc.
  unfold lastRadioButton, firstRadioButton, gets.
  rewrite (uniform_lastRadioButton T _ _ _ HU Hl).
  cbn [sameNode]. rewrite nodeEqb_refl.
  rewrite (uniform_firstRadioButton T _ HU), Hf. reflexivity.
Qed.

Lemma prev_wraps s T first mid mid' lst :
  uniformGroup T (dom s) = true ->
  items (dom s) = first :: mid ->
  items (dom s) = mid' ++ [lst] ->
  currentItem (dom s) = Some first ->
  _setCheckedToPrevButton s = _setChecked (Some lst) s.
Proof.
  intros HU Hf Hl Hc. unfold _setCheckedToPrevButton, bind.
  rewrite checkedOrFirst_run, Hc.
  unfold lastRadioButton, firstRadioButton, gets.
  rewrite (uniform_firstRadioButton T _ HU), Hf. cbn [hd_error sameNode].
  rewrite nodeEqb_refl.
  rewrite (uniform_lastRadioButton T _ _ _ HU Hl). reflexivity.
Qed.

(** C5, as the code has it.  Take a group whose candidate items are children
    of the host and in which a child has role [radio] exactly when it has
    the element type [T] (the [dash-radio-button] children of a
    [dash-radio-group], with whatever else between them), with at least one
    item.  The current item is the first node with [aria-checked="true"],
    or else the first item.  If the current item is the last item,
    [_setCheckedToNextButton] completes normally, leaves the first item as
    the one selected and focusable item and asks for focus on it.  If the
    current item is the first item, [_setCheckedToPrevButton] does the same
    with the last item.  When the group has a single item, that item is
    both: either method selects it again. *)
Theorem wrap_around_in_uniform_group
    (s : State) (T : string) (first lst : NodeRef) (mid mid' : list NodeRef) :
  uniformGroup T (dom s) = true ->
  items (dom s) = first :: mid ->
  items (dom s) = mid' ++ [lst] ->
  (currentItem (dom s) = Some lst ->
   let s' := exec _setCheckedToNextButton s in
   outcome _setCheckedToNextButton s = Normal tt /\
   selectedItems (dom s') = [first] /\
   focusableItems (dom s') = [first] /\
   focusRequests (trace s') = focusRequests (trace s) ++ [first]) /\
  (currentItem (dom s) = Some first ->
   let s' := exec _setCheckedToPrevButton s in
   outcome _setCheckedToPrevButton s = Normal tt /\
   selectedItems (dom s') = [lst] /\
   focusableItems (dom s') = [lst] /\
   focusRequests (trace s') = focusRequests (trace s) ++ [lst]) /\
  (mid = [] ->
   lst = first /\
   (currentItem (dom s) = Some first ->
    selectedItems (dom (exec _setCheckedToNextButton s)) = [first] /\
    selectedItems (dom (exec _setCheckedToPrevButton s)) = [first])).
Proof.
  intros HU Hf Hl.
  assert (Hfirst : In first (items (dom s))) by (rewrite Hf; left; reflexivity).
  assert (Hlast : In lst (items (dom s))).
  { rewrite Hl. apply in_or_app. right. left. reflexivity. }
  split; [|split].
  - intros Hc s'. subst s'. unfold outcome, exec.
    rewrite (next_wraps s T first mid mid' lst HU Hf Hl Hc).
    exact (setChecked_item s first Hfirst).
  - intros Hc s'. subst s'. unfold outcome, exec.
    rewrite (prev_wraps s T first mid mid' lst HU Hf Hl Hc).
    exact (setChecked_item s lst Hlast).
  - intros ->.
    assert (E : lst = first).
    { rewrite Hf in Hl. change [first] with ([] ++ [first]) in Hl.
      apply app_inj_tail in Hl as [_ Hl]. congruence. }
    split; [exact E|]. subst lst. intros Hc. unfold exec. split.
    + rewrite (next_wraps s T first [] mid' first HU Hf Hl Hc).
      exact (proj1 (proj2 (setChecked_item s first Hfirst))).
    + rewrite (prev_wraps s T first [] mid' first HU Hf Hl Hc).
      exact (proj1 (proj2 (setChecked_item s first Hfirst))).
Qed.

Lemma wrap_around_in_uniform_group_witness :
  uniformGroup "dash-radio-button" (dom (initial lastChecked)) = true /\
  items (dom (initial lastChecked)) = [0] :: [[2]; [3]] /\
  items (dom (initial lastChecked)) = [[0]; [2]] ++ [[3]] /\
  currentItem (dom (initial lastChecked)) = Some [3] /\
  selectedItems (dom (exec _setCheckedToNextButton (initial lastChecked)))
  = [[0]].
Proof.
  assert (HU : uniformGroup "dash-radio-button" (dom (initial lastChecked))
               = true) by reflexivity.
  assert (Hf : items (dom (initial lastChecked)) = [0] :: [[2]; [3]])
    by reflexivity.
  assert (Hl : items (dom (initial lastChecked)) = [[0]; [2]] ++ [[3]])
    by reflexivity.
  assert (Hc : currentItem (dom (initial lastChecked)) = Some [3])
    by reflexivity.
  split; [exact HU|]. split; [exact Hf|]. split; [exact Hl|].
  split; [exact Hc|].
  exact (proj1 (proj2 (proj1
           (wrap_around_in_uniform_group (initial lastChecked)
              "dash-radio-button" [0] [3] [[2]; [3]] [[0]; [2]] HU Hf Hl)
           Hc))).
Defined.

(* ================================================================== *)
(** ** What an event can do *)

Lemma radio_below_host_is_item d n :
  n <> [] -> isRadio d n = true -> In n (items d).
Proof.
  intros Hn Hr. apply in_items. split; [|exact Hr].
  apply in_descendants. split; [exact Hn|].
  apply radio_has_attrs in Hr. unfold attrsAt in Hr.
  destruct (nodeAt d n); [discriminate|contradiction].
Qed.

Lemma query_radio_item (sel : Element -> NodeRef -> bool) d x :
  querySelector (fun d n => isRadio d n && sel d n) d = Some x ->
  In x (items d).
Proof.
  unfold querySelector. intros H. apply find_some in H as [Hin Hs].
  apply andb_true_iff in Hs as [Hr _]. apply in_items. split; assumption.
Qed.

Lemma nextRadioOf_item d n m : nextRadioOf d n = Some m -> In m (items d).
Proof.
  intros H. destruct n as [|x n]; [discriminate|].
  apply nextRadioOf_some in H as (j & -> & _ & Hr & _); [|discriminate].
  apply radio_below_host_is_item; [apply childRef_nonnil|exact Hr].
Qed.

Lemma prevRadioOf_item d n m : prevRadioOf d n = Some m -> In m (items d).
Proof.
  intros H. destruct n as [|x n]; [discriminate|].
  apply prevRadioOf_some in H as (j & -> & _ & Hr & _); [|discriminate].
  apply radio_below_host_is_item; [apply childRef_nonnil|exact Hr].
Qed.

Lemma currentItem_none d :
  currentItem d = None -> querySelector isSelected d = None.
Proof.
  unfold currentItem, orElse.
  destruct (querySelector isSelected d); [discriminate|reflexivity].
Qed.

(** The node an arrow key hands to [_setChecked] is an item or [null]. *)
Lemma next_outcomes s :
  (exists x, In x (items (dom s)) /\
             _setCheckedToNextButton s = _setChecked (Some x) s) \/
  _setCheckedToNextButton s = _setChecked None s \/
  (_setCheckedToNextButton s = (Throw TypeError, s) /\
   querySelector isSelected (dom s) = None).
Proof.
  unfold _setCheckedToNextButton, bind. rewrite checkedOrFirst_run.
  unfold lastRadioButton, firstRadioButton, _nextRadioButton, gets, bind.
  destruct (sameNode (currentItem (dom s)) _) eqn:Esame.
  - destruct (querySelector (fun d n => isRadio d n && firstOfType d n) (dom s))
      as [f|] eqn:Ef.
    + left. exists f. split; [|reflexivity].
      exact (query_radio_item _ _ _ Ef).
    + right. left. reflexivity.
  - destruct (currentItem (dom s)) as [c|] eqn:Ec.
    + unfold deref, ret.
      destruct (nextRadioOf (dom s) c) as [m|] eqn:Em.
      * left. exists m. split; [|reflexivity]. exact (nextRadioOf_item _ _ _ Em).
      * right. left. reflexivity.
    + right. right. split; [reflexivity|]. apply currentItem_none, Ec.
Qed.

Lemma prev_outcomes s :
  (exists x, In x (items (dom s)) /\
             _setCheckedToPrevButton s = _setChecked (Some x) s) \/
  _setCheckedToPrevButton s = _setChecked None s.
Proof.
  unfold _setCheckedToPrevButton, bind. rewrite checkedOrFirst_run.
  unfold lastRadioButton, firstRadioButton, _prevRadioButton, gets, bind.
  destruct (sameNode (currentItem (dom s)) _) eqn:Esame.
  - destruct (querySelector (fun d n => isRadio d n && lastOfType d n) (dom s))
      as [l|] eqn:El.
    + left. exists l. split; [|reflexivity].
      exact (query_radio_item _ _ _ El).
    + right. reflexivity.
  - destruct (currentItem (dom s)) as [c|] eqn:Ec.
    + unfold deref, ret.
      destruct (prevRadioOf (dom s) c) as [m|] eqn:Em.
      * left. exists m. split; [|reflexivity]. exact (prevRadioOf_item _ _ _ Em).
      * right. reflexivity.
    + exfalso. unfold currentItem, orElse in Ec.
      destruct (querySelector isSelected (dom s)); [discriminate|].
      rewrite Ec in Esame. discriminate.
Qed.

Lemma setChecked_logged x s t :
  _setChecked x (logged s t) =
  match x with
  | Some n =>
      (Normal tt,
       mkState (checkNode n (uncheckAllDom (dom s)))
               (keydownListener s) (clickListener s)
               (trace s ++ t ++ flat_map clearTrace (items (dom s))
                        ++ checkTrace n ++ [Focus n]))
  | None =>
      (Throw TypeError,
       mkState (uncheckAllDom (dom s))
               (keydownListener s) (clickListener s)
               (trace s ++ t ++ flat_map clearTrace (items (dom s))))
  end.
Proof.
  destruct x as [n|].
  - rewrite setChecked_run. unfold logged.
    cbn [dom keydownListener clickListener trace].
    rewrite <- !app_assoc. reflexivity.
  - rewrite setChecked_null. unfold logged.
    cbn [dom keydownListener clickListener trace].
    rewrite <- !app_assoc. reflexivity.
Qed.

Lemma isArrow_split k :
  isArrow k = ((k =? KEYCODE.UP)%Z || (k =? KEYCODE.LEFT)%Z)
              || ((k =? KEYCODE.DOWN)%Z || (k =? KEYCODE.RIGHT)%Z).
Proof. unfold isArrow. rewrite !orb_assoc. reflexivity. Qed.

Lemma preventDefault_then {A} (m : M A) s :
  (preventDefault ;; m) s = m (logged s [PreventDefault]).
Proof. reflexivity. Qed.

(** Every event ends in one of the four ways. *)
Lemma handled s ev :
  Handled s ev (outcome (handle ev) s) (exec (handle ev) s).
Proof.
  unfold outcome, exec. destruct ev as [k|t]; cbn [handle].
  - unfold _onKeyDown.
    destruct ((k =? KEYCODE.UP)%Z || (k =? KEYCODE.LEFT)%Z) eqn:Eup.
    + assert (Harrow : isArrow k = true) by (rewrite isArrow_split, Eup; reflexivity).
      rewrite preventDefault_then.
      destruct (prev_outcomes (logged s [PreventDefault])) as [(x & Hx & E)|E];
        rewrite E, setChecked_logged; cbn [fst snd].
      * apply (HSelected s (KeyDown k) x); [exact Harrow|left; exact Hx|].
        intros t Ht. discriminate Ht.
      * apply (HCleared s (KeyDown k) k); [reflexivity|exact Harrow].
    + destruct ((k =? KEYCODE.DOWN)%Z || (k =? KEYCODE.RIGHT)%Z) eqn:Edown.
      * assert (Harrow : isArrow k = true)
          by (rewrite isArrow_split, Eup, Edown; reflexivity).
        rewrite preventDefault_then.
        destruct (next_outcomes (logged s [PreventDefault]))
          as [(x & Hx & E)|[E|[E Hn]]].
        -- rewrite E, setChecked_logged; cbn [fst snd].
           apply (HSelected s (KeyDown k) x); [exact Harrow|left; exact Hx|].
           intros t Ht. discriminate Ht.
        -- rewrite E, setChecked_logged; cbn [fst snd].
           apply (HCleared s (KeyDown k) k); [reflexivity|exact Harrow].
        -- rewrite E. cbn [fst snd].
           apply (HStuck s (KeyDown k) k); [reflexivity|exact Harrow|exact Hn].
      * cbn [ret fst snd]. apply HIgnored. cbn [selects].
        rewrite isArrow_split, Eup, Edown. reflexivity.
  - unfold _onClick, bind, gets.
    destruct (isRadio (dom s) t) eqn:Er.
    + rewrite setChecked_run. cbn [fst snd].
      apply (HSelected s (Click t) t); [exact Er| |].
      * destruct t as [|i t]; [right; reflexivity|left].
        apply radio_below_host_is_item; [discriminate|exact Er].
      * intros t' [= ->]. reflexivity.
    + cbn [ret fst snd]. apply HIgnored. exact Er.
Qed.

Lemma focusRequests_prefixOf ev : focusRequests (prefixOf ev) = [].
Proof. destruct ev; reflexivity. Qed.

Lemma preventDefaults_app t u :
  preventDefaults (t ++ u) = preventDefaults t + preventDefaults u.
Proof.
  induction t as [|e t IH]; simpl; [reflexivity|].
  destruct e; simpl; rewrite IH; reflexivity.
Qed.

Lemma preventDefaults_clear l : preventDefaults (flat_map clearTrace l) = 0.
Proof. induction l as [|x l IH]; simpl; [reflexivity|exact IH]. Qed.

Lemma kept_uncheckAllDom d p a :
  attrsAt d p = Some a ->
  exists a', attrsAt (uncheckAllDom d) p = Some a' /\
             tagName a' = tagName a /\ role a' = role a.
Proof.
  intros H. rewrite attrsAt_uncheckAllDom, H.
  destruct (isItem d p); eexists; repeat split.
Qed.

Lemma kept_checkNode n d p a :
  attrsAt d p = Some a ->
  exists a', attrsAt (checkNode n d) p = Some a' /\
             tagName a' = tagName a /\ role a' = role a.
Proof.
  intros H. rewrite attrsAt_checkNode, H.
  destruct (nodeEqb n p); eexists; repeat split.
Qed.

(** X1.  Roving focus after a selection.  When an arrow key is handled
    without an exception, or a node below the host with role [radio] is
    clicked, there is an item [x] of the group such that afterwards [x] is
    the only selected item and the only focusable item, and the one focus
    request the handler made names [x]; for a click, [x] is the target. *)
Theorem roving_focus_after_selection (s : State) (ev : Event) :
  selects s ev = true ->
  outcome (handle ev) s = Normal tt ->
  ev <> Click [] ->
  let s' := exec (handle ev) s in
  exists x, In x (items (dom s)) /\
            selectedItems (dom s') = [x] /\
            focusableItems (dom s') = [x] /\
            focusRequests (trace s') = focusRequests (trace s) ++ [x] /\
            (forall t, ev = Click t -> x = t).
Proof.
  intros Hsel Hout Hev s'. subst s'.
  pose proof (handled s ev) as H. rewrite Hout in H.
  remember (Normal tt) as o eqn:Eo. remember (exec (handle ev) s) as s' eqn:Es'.
  destruct H as [Hno|x _ Hx Hclick|k _ _|k _ _ _]; try discriminate Eo.
  - rewrite Hsel in Hno. discriminate.
  - destruct Hx as [Hx|Hx]; [|contradiction].
    exists x. cbn [dom trace]. split; [exact Hx|].
    apply isItem_in in Hx.
    rewrite selectedItems_after_select, focusableItems_after_select, Hx.
    rewrite !focusRequests_app, focusRequests_prefixOf, focusRequests_clear.
    repeat split. exact Hclick.
Qed.

Lemma roving_focus_after_selection_witness :
  selects (initial twoTabStops) (KeyDown 40) = true /\
  outcome (handle (KeyDown 40)) (initial twoTabStops) = Normal tt /\
  exists x, selectedItems (dom (exec (handle (KeyDown 40)) (initial twoTabStops)))
            = [x] /\
            focusableItems (dom (exec (handle (KeyDown 40)) (initial twoTabStops)))
            = [x].
Proof.
  assert (Hs : selects (initial twoTabStops) (KeyDown 40) = true) by reflexivity.
  assert (Ho : outcome (handle (KeyDown 40)) (initial twoTabStops) = Normal tt)
    by reflexivity.
  assert (He : KeyDown 40 <> Click []) by discriminate.
  split; [exact Hs|]. split; [exact Ho|].
  destruct (roving_focus_after_selection (initial twoTabStops) (KeyDown 40)
              Hs Ho He) as (x & _ & H1 & H2 & _).
  exists x. split; assumption.
Defined.

(** X2.  A failed arrow key.  When [_onKeyDown] throws, the key was an arrow
    key, and afterwards no item of the group is selected; no focus request
    was made, the items are the same, and the listeners stay registered as
    they were. *)
Theorem failed_arrow_key_deselects (s : State) (k : Z) :
  outcome (_onKeyDown k) s = Throw TypeError ->
  let s' := exec (_onKeyDown k) s in
  isArrow k = true /\
  selectedItems (dom s') = [] /\
  focusRequests (trace s') = focusRequests (trace s) /\
  items (dom s') = items (dom s) /\
  keydownListener s' = keydownListener s /\
  clickListener s' = clickListener s.
Proof.
  intros Hout s'. subst s'.
  pose proof (handled s (KeyDown k)) as H. cbn [handle] in H.
  rewrite Hout in H.
  remember (Throw TypeError) as o eqn:Eo.
  remember (exec (_onKeyDown k) s) as s' eqn:Es'.
  destruct H as [Hno|x _ _ _|k' [= <-] Harrow|k' [= <-] Harrow Hn];
    try discriminate Eo.
  - cbn [dom trace keydownListener clickListener].
    rewrite selectedItems_uncheckAllDom, items_uncheckAllDom.
    rewrite !focusRequests_app, focusRequests_clear, app_nil_r.
    repeat split. exact Harrow.
  - unfold logged. cbn [dom trace keydownListener clickListener].
    rewrite (nothing_checked_no_selection _ Hn), focusRequests_app, app_nil_r.
    repeat split. exact Harrow.
Qed.

Lemma failed_arrow_key_deselects_witness :
  outcome (_onKeyDown 40) (initial trailingDiv) = Throw TypeError /\
  selectedItems (dom (exec (_onKeyDown 40) (initial trailingDiv))) = [].
Proof.
  assert (Ho : outcome (_onKeyDown 40) (initial trailingDiv) = Throw TypeError)
    by reflexivity.
  split; [exact Ho|].
  exact (proj1 (proj2 (failed_arrow_key_deselects (initial trailingDiv) 40 Ho))).
Defined.

(** X3.  [preventDefault] is called for the arrow keys and for nothing
    else.  An arrow key calls it exactly once, before any attribute write
    and whether or not the move then fails; any other key and any click
    leave the default action alone. *)
Theorem preventDefault_only_for_arrows (s : State) (ev : Event) :
  exists rest,
    trace (exec (handle ev) s)
    = trace s ++ (if arrowKey ev then [PreventDefault] else []) ++ rest /\
    preventDefaults rest = 0.
Proof.
  pose proof (handled s ev) as H.
  remember (outcome (handle ev) s) as o eqn:Eo.
  remember (exec (handle ev) s) as s' eqn:Es'.
  destruct H as [Hno|x Hsel _ _|k Hev Harrow|k Hev Harrow Hn].
  - exists []. split; [|reflexivity].
    destruct ev as [k|t]; cbn [arrowKey selects] in *.
    + rewrite Hno, !app_nil_r. reflexivity.
    + rewrite !app_nil_r. reflexivity.
  - exists (flat_map clearTrace (items (dom s)) ++ checkTrace x ++ [Focus x]).
    cbn [trace]. split.
    + destruct ev as [k|t]; cbn [arrowKey selects prefixOf] in *.
      * rewrite Hsel. reflexivity.
      * reflexivity.
    + rewrite preventDefaults_app, preventDefaults_clear. reflexivity.
  - exists (flat_map clearTrace (items (dom s))). rewrite Hev.
    cbn [trace arrowKey].
    rewrite Harrow. split; [reflexivity|apply preventDefaults_clear].
  - exists []. rewrite Hev. unfold logged. cbn [trace arrowKey].
    rewrite Harrow. split; reflexivity.
Qed.

(** X5.  What an event never touches.  Whatever the event and however it
    ends, the tree keeps its nodes and its items, the listeners stay as
    they were, every node keeps its element type and its role, and a node
    below the host that is not an item keeps all its attributes. *)
Theorem events_write_items_only (s : State) (ev : Event) :
  let s' := exec (handle ev) s in
  descendants (dom s') = descendants (dom s) /\
  items (dom s') = items (dom s) /\
  keydownListener s' = keydownListener s /\
  clickListener s' = clickListener s /\
  (forall p a, attrsAt (dom s) p = Some a ->
     exists a', attrsAt (dom s') p = Some a' /\
                tagName a' = tagName a /\ role a' = role a) /\
  (forall p, p <> [] -> isItem (dom s) p = false ->
             attrsAt (dom s') p = attrsAt (dom s) p).
Proof.
  intros s'. subst s'.
  pose proof (handled s ev) as H.
  remember (outcome (handle ev) s) as o eqn:Eo.
  remember (exec (handle ev) s) as s' eqn:Es'.
  destruct H as [Hno|x Hsel Hx Hclick|k Hev Harrow|k Hev Harrow Hn].
  - repeat split; try reflexivity. intros p a Ha. exists a. auto.
  - cbn [dom keydownListener clickListener].
    split; [rewrite descendants_checkNode, descendants_uncheckAllDom; reflexivity|].
    split; [rewrite items_checkNode, items_uncheckAllDom; reflexivity|].
    split; [reflexivity|]. split; [reflexivity|]. split.
    + intros p a Ha.
      destruct (kept_uncheckAllDom _ _ _ Ha) as (a1 & H1 & Ht1 & Hr1).
      destruct (kept_checkNode x _ _ _ H1) as (a2 & H2 & Ht2 & Hr2).
      exists a2. split; [exact H2|]. split; congruence.
    + intros p Hp Hni.
      rewrite attrsAt_checkNode, attrsAt_uncheckAllDom, Hni.
      rewrite nodeEqb_neq; [reflexivity|].
      intros ->. destruct Hx as [Hx|Hx].
      * apply isItem_in in Hx. congruence.
      * specialize (Hclick [] Hx). contradiction.
  - cbn [dom keydownListener clickListener].
    split; [apply descendants_uncheckAllDom|].
    split; [apply items_uncheckAllDom|].
    split; [reflexivity|]. split; [reflexivity|]. split.
    + intros p a Ha. exact (kept_uncheckAllDom _ _ _ Ha).
    + intros p Hp Hni. rewrite attrsAt_uncheckAllDom, Hni. reflexivity.
  - unfold logged. cbn [dom keydownListener clickListener].
    repeat split; try reflexivity. intros p a Ha. exists a. auto.
Qed.

Lemma events_write_items_only_witness :
  [1; 0] <> [] /\ isItem (dom (initial nested)) [1; 0] = false /\
  attrsAt (dom (exec (handle (Click [1])) (initial nested))) [1; 0]
  = attrsAt (dom (initial nested)) [1; 0].
Proof.
  assert (Hp : [1; 0] <> ([] : NodeRef)) by discriminate.
  assert (Hi : isItem (dom (initial nested)) [1; 0] = false) by reflexivity.
  split; [exact Hp|]. split; [exact Hi|].
  exact (proj2 (proj2 (proj2 (proj2 (proj2
           (events_write_items_only (initial nested) (Click [1]))))))
           [1; 0] Hp Hi).
Defined.

(* ================================================================== *)
(** ** The life cycle of the group *)

Lemma first_none_items d : querySelector isRadio d = None -> items d = [].
Proof.
  rewrite first_is_hd_items. destruct (items d); [reflexivity|discriminate].
Qed.

Lemma disconnected_run s :
  disconnectedCallback s =
  (Normal tt,
   mkState (dom s) false false
           (trace s ++ [RemoveEventListener "keydown";
                        RemoveEventListener "click"])).
Proof.
  unfold disconnectedCallback, bind, removeEventListener.
  cbn [dom keydownListener clickListener trace String.eqb negb].
  rewrite !andb_false_r, <- app_assoc.
  destruct (keydownListener s), (clickListener s); reflexivity.
Qed.

(** X4.  When attaching succeeds.  [connectedCallback] completes normally
    exactly when some descendant carries [aria-checked="true"] or the group
    has an item; otherwise it throws a [TypeError].  When it completes, both
    listeners are registered; when it throws, the registrations are as they
    were.  [disconnectedCallback] afterwards always completes, leaves the
    tree alone and leaves no listener registered. *)
Theorem attach_completes_iff_something_to_focus (s : State) :
  let s' := exec connectedCallback s in
  let s'' := exec disconnectedCallback s' in
  (outcome connectedCallback s = Normal tt <->
   (querySelector isSelected (dom s) <> None \/ items (dom s) <> [])) /\
  (outcome connectedCallback s = Normal tt /\
   keydownListener s' = true /\ clickListener s' = true
   \/
   outcome connectedCallback s = Throw TypeError /\
   keydownListener s' = keydownListener s /\
   clickListener s' = clickListener s) /\
  outcome disconnectedCallback s' = Normal tt /\
  dom s'' = dom s' /\
  keydownListener s'' = false /\ clickListener s'' = false.
Proof.
  intros s' s''. subst s'' s'. unfold outcome, exec.
  rewrite disconnected_run. cbn [fst snd dom keydownListener clickListener].
  destruct (querySelector isSelected (dom s)) as [c|] eqn:Ec.
  - rewrite (connected_checked s c Ec).
    cbn [fst snd dom keydownListener clickListener].
    split; [|split; [left|]; repeat split].
    split; [intros _; left; discriminate|reflexivity].
  - destruct (querySelector isRadio (dom s)) as [f|] eqn:Ef.
    + rewrite (connected_unchecked s f Ec Ef).
      cbn [fst snd dom keydownListener clickListener].
      split; [|split; [left|]; repeat split].
      split; [|reflexivity]. intros _. right.
      rewrite first_is_hd_items in Ef. intros E. rewrite E in Ef. discriminate.
    + rewrite (connected_empty s Ec Ef).
      cbn [fst snd dom keydownListener clickListener].
      split; [|split; [right|]; repeat split].
      split; [discriminate|].
      intros [H|H]; [contradiction|].
      apply first_none_items in Ef. contradiction.
Qed.

Lemma kept_hostDom d p a :
  attrsAt d p = Some a ->
  exists a', attrsAt (hostDom d) p = Some a' /\ tagName a' = tagName a /\
             (p <> [] -> role a' = role a).
Proof.
  intros H. unfold hostDom. rewrite attrsAt_updateAt, H.
  destruct (nodeEqb [] p) eqn:E.
  - apply nodeEqb_eq in E. subst p. eexists. split; [reflexivity|].
    split; [reflexivity|]. intros Hne. contradiction.
  - eexists. repeat split.
Qed.

Lemma kept_setTab z f d p a :
  attrsAt d p = Some a ->
  exists a', attrsAt (updateAt (withTabindex z) f d) p = Some a' /\
             tagName a' = tagName a /\ role a' = role a.
Proof.
  intros H. rewrite attrsAt_updateAt, H.
  destruct (nodeEqb f p); eexists; repeat split.
Qed.

Lemma query_below_host sel d c : querySelector sel d = Some c -> c <> [].
Proof.
  unfold querySelector. intros H. apply find_some in H as [H _].
  exact (in_descendants_nonnil _ _ H).
Qed.

(** X6.  What attaching never touches.  However [connectedCallback] ends,
    the tree keeps its nodes and its items; every node keeps its element
    type, every node below the host keeps its role, and the host's own
    attributes change in the role alone.  Below the host, a node that is
    neither an item nor the first node carrying [aria-checked="true"] keeps
    all its attributes.  Attaching never asks for focus and never calls
    [preventDefault]. *)
Theorem attach_writes_items_and_checked_only (s : State) :
  let s' := exec connectedCallback s in
  descendants (dom s') = descendants (dom s) /\
  items (dom s') = items (dom s) /\
  focusRequests (trace s') = focusRequests (trace s) /\
  preventDefaults (trace s') = preventDefaults (trace s) /\
  attrsAt (dom s') [] = option_map (withRole "radiogroup") (attrsAt (dom s) []) /\
  (forall p a, attrsAt (dom s) p = Some a ->
     exists a', attrsAt (dom s') p = Some a' /\ tagName a' = tagName a /\
                (p <> [] -> role a' = role a)) /\
  (forall p, p <> [] -> isItem (dom s) p = false ->
             querySelector isSelected (dom s) <> Some p ->
             attrsAt (dom s') p = attrsAt (dom s) p).
Proof.
  intros s'. subst s'. unfold exec.
  assert (Hroot : isItem (dom s) [] = false).
  { destruct (isItem (dom s) []) eqn:E; [|reflexivity].
    apply isItem_nonnil in E. contradiction. }
  destruct (querySelector isSelected (dom s)) as [c|] eqn:Ec.
  - rewrite (connected_checked s c Ec). cbn [snd dom].
    pose proof (query_below_host _ _ _ Ec) as Hc.
    split; [rewrite descendants_checkNode, descendants_uncheckAllDom;
            apply descendants_hostDom|].
    split; [rewrite items_checkNode, items_uncheckAllDom; apply items_hostDom|].
    cbn [trace].
    split.
    { rewrite !focusRequests_app, focusRequests_clear. simpl.
      rewrite app_nil_r. reflexivity. }
    split.
    { rewrite !preventDefaults_app, preventDefaults_clear. simpl. lia. }
    split.
    { rewrite attrsAt_checkNode, attrsAt_uncheckAllDom, isItem_hostDom, Hroot.
      rewrite nodeEqb_neq by exact Hc. apply attrsAt_root_hostDom. }
    split.
    + intros p a Ha.
      destruct (kept_hostDom _ _ _ Ha) as (a0 & H0 & Ht0 & Hr0).
      destruct (kept_uncheckAllDom _ _ _ H0) as (a1 & H1 & Ht1 & Hr1).
      destruct (kept_checkNode c _ _ _ H1) as (a2 & H2 & Ht2 & Hr2).
      exists a2. split; [exact H2|]. split; [congruence|].
      intros Hp. rewrite Hr2, Hr1. exact (Hr0 Hp).
    + intros p Hp Hni Hnc.
      rewrite attrsAt_checkNode, attrsAt_uncheckAllDom, isItem_hostDom, Hni.
      rewrite (nodeEqb_neq c p) by (intros ->; apply Hnc; reflexivity).
      apply attrsAt_hostDom, Hp.
  - destruct (querySelector isRadio (dom s)) as [f|] eqn:Ef.
    + rewrite (connected_unchecked s f Ec Ef). cbn [snd dom].
      pose proof (query_below_host _ _ _ Ef) as Hf.
      assert (Hfi : isItem (dom s) f = true).
      { apply isItem_in. rewrite first_is_hd_items in Ef.
        destruct (items (dom s)) as [|x l]; [discriminate|].
        injection Ef as ->. left. reflexivity. }
      split; [rewrite descendants_updateAt; apply descendants_hostDom|].
      split; [rewrite items_setTab; apply items_hostDom|].
      cbn [trace].
      split; [rewrite focusRequests_app, app_nil_r; reflexivity|].
      split; [rewrite preventDefaults_app; simpl; lia|].
      split.
      { rewrite attrsAt_updateAt, nodeEqb_neq by exact Hf.
        apply attrsAt_root_hostDom. }
      split.
      * intros p a Ha.
        destruct (kept_hostDom _ _ _ Ha) as (a0 & H0 & Ht0 & Hr0).
        destruct (kept_setTab 0 f _ _ _ H0) as (a1 & H1 & Ht1 & Hr1).
        exists a1. split; [exact H1|]. split; [congruence|].
        intros Hp. rewrite Hr1. exact (Hr0 Hp).
      * intros p Hp Hni _.
        rewrite attrsAt_updateAt, (nodeEqb_neq f p) by congruence.
        apply attrsAt_hostDom, Hp.
    + rewrite (connected_empty s Ec Ef). cbn [snd dom].
      split; [apply descendants_hostDom|]. split; [apply items_hostDom|].
      cbn [trace].
      split; [rewrite focusRequests_app, app_nil_r; reflexivity|].
      split; [rewrite preventDefaults_app; simpl; lia|].
      split; [apply attrsAt_root_hostDom|]. split.
      * intros p a Ha. exact (kept_hostDom _ _ _ Ha).
      * intros p Hp _ _. apply attrsAt_hostDom, Hp.
Qed.

Lemma attach_writes_items_and_checked_only_witness :
  [1] <> [] /\ isItem (dom (initial labelled)) [1] = false /\
  querySelector isSelected (dom (initial labelled)) <> Some [1] /\
  attrsAt (dom (exec connectedCallback (initial labelled))) [1]
  = attrsAt (dom (initial labelled)) [1].
Proof.
  assert (Hp : [1] <> ([] : NodeRef)) by discriminate.
  assert (Hi : isItem (dom (initial labelled)) [1] = false) by reflexivity.
  assert (Hc : querySelector isSelected (dom (initial labelled)) <> Some [1])
    by discriminate.
  split; [exact Hp|]. split; [exact Hi|]. split; [exact Hc|].
  exact (proj2 (proj2 (proj2 (proj2 (proj2 (proj2
           (attach_writes_items_and_checked_only (initial labelled)))))))
           [1] Hp Hi Hc).
Defined.

(* ================================================================== *)
(** ** Upgrading a button *)

Lemma radioButton_run this s a :
  attrsAt (dom s) this = Some a ->
  RadioButton.connectedCallback this s =
  (Normal tt,
   mkState (updateAt upgraded this (dom s)) (keydownListener s)
           (clickListener s)
           (trace s ++ [SetRole this "radio";
                        SetTabindex this (match tabindex a with
                                          | Some z => z
                                          | None => (-1)%Z
                                          end);
                        SetAriaChecked this
                          (match ariaChecked a with
                           | Some v => if String.eqb v "" then "false" else v
                           | None => "false"
                           end)])).
Proof.
  intros Ha.
  unfold RadioButton.connectedCallback, bind, gets, setRole, setTabindex,
    setAriaChecked, write.
  cbn [dom keydownListener clickListener trace].
  rewrite !attrsAt_updateAt, !nodeEqb_refl, Ha. cbn [option_map withRole
    withTabindex tabindex ariaChecked].
  rewrite <- !app_assoc. cbn [app]. f_equal. f_equal.
  apply element_ext. intros p. rewrite !attrsAt_updateAt.
  destruct (nodeEqb this p) eqn:E; [|reflexivity].
  apply nodeEqb_eq in E. subst p. rewrite Ha. reflexivity.
Qed.

Lemma upgraded_idem a : upgraded (upgraded a) = upgraded a.
Proof.
  unfold upgraded. cbn [tagName ariaChecked tabindex]. f_equal. f_equal.
  destruct (ariaChecked a) as [v|]; [|reflexivity].
  destruct (String.eqb v "") eqn:E; [reflexivity|]. rewrite E. reflexivity.
Qed.

Lemma upgraded_selected a :
  attrIs (ariaChecked (upgraded a)) "true" = attrIs (ariaChecked a) "true".
Proof.
  unfold upgraded. cbn [ariaChecked attrIs].
  destruct (ariaChecked a) as [v|]; [|reflexivity].
  destruct (String.eqb_spec v ""); [subst v|]; reflexivity.
Qed.

(** X7.  Upgrading a button.  [RadioButton.connectedCallback] on a node of
    the tree completes normally and makes the node a candidate (role
    [radio]) with all three attributes present; it changes neither whether
    the node is selected nor whether it is focusable, writes no other node,
    and running it a second time changes nothing in the tree. *)
Theorem radio_button_upgrade (s : State) (this : NodeRef) (a : Attrs) :
  attrsAt (dom s) this = Some a ->
  let s' := exec (RadioButton.connectedCallback this) s in
  outcome (RadioButton.connectedCallback this) s = Normal tt /\
  attrsAt (dom s') this = Some (upgraded a) /\
  isRadio (dom s') this = true /\
  isSelected (dom s') this = isSelected (dom s) this /\
  isFocusable (dom s') this = isFocusable (dom s) this /\
  (forall p, p <> this -> attrsAt (dom s') p = attrsAt (dom s) p) /\
  dom (exec (RadioButton.connectedCallback this) s') = dom s'.
Proof.
  intros Ha s'. subst s'. unfold outcome, exec.
  rewrite (radioButton_run this s a Ha). cbn [fst snd dom].
  assert (Hup : attrsAt (updateAt upgraded this (dom s)) this = Some (upgraded a)).
  { rewrite attrsAt_updateAt, nodeEqb_refl, Ha. reflexivity. }
  split; [reflexivity|]. split; [exact Hup|]. split.
  { unfold isRadio. rewrite Hup. reflexivity. }
  split.
  { unfold isSelected. rewrite Hup, Ha. apply upgraded_selected. }
  split.
  { unfold isFocusable. rewrite Hup, Ha. unfold upgraded. cbn [tabindex].
    destruct (tabindex a); reflexivity. }
  split.
  { intros p Hp. rewrite attrsAt_updateAt, nodeEqb_neq by congruence.
    reflexivity. }
  rewrite (radioButton_run this _ (upgraded a)) by exact Hup. cbn [snd dom].
  apply element_ext. intros p. rewrite !attrsAt_updateAt.
  destruct (nodeEqb this p); [|reflexivity].
  destruct (attrsAt (dom s) p); [|reflexivity].
  cbn [option_map]. rewrite upgraded_idem. reflexivity.
Qed.

Lemma radio_button_upgrade_witness :
  attrsAt (dom (initial (group [plain "dash-radio-button" []]))) [0]
  = Some (mkAttrs "dash-radio-button" None None None) /\
  isRadio (dom (exec (RadioButton.connectedCallback [0])
                     (initial (group [plain "dash-radio-button" []])))) [0]
  = true.
Proof.
  assert (Ha : attrsAt (dom (initial (group [plain "dash-radio-button" []]))) [0]
               = Some (mkAttrs "dash-radio-button" None None None))
    by reflexivity.
  split; [exact Ha|].
  exact (proj1 (proj2 (proj2
           (radio_button_upgrade (initial (group [plain "dash-radio-button" []]))
              [0] _ Ha)))).
Defined.

(* ================================================================== *)
(** ** Keyboard navigation in the documented layout *)

Lemma nextRadioOf_nearest d n m :
  n <> [] -> nearestAfter d (parentRef n) (indexOf n) m ->
  nextRadioOf d n = Some m.
Proof.
  intros Hn Hm. destruct (nextRadioOf d n) as [m'|] eqn:E.
  - f_equal. eapply nearestAfter_unique; [|exact Hm].
    apply nextRadioOf_some; assumption.
  - destruct Hm as (j & -> & Hj & Hr & _).
    rewrite (nextRadioOf_none _ _ j Hn E Hj) in Hr. discriminate.
Qed.

Lemma prevRadioOf_nearest d n m :
  n <> [] -> nearestBefore d (parentRef n) (indexOf n) m ->
  prevRadioOf d n = Some m.
Proof.
  intros Hn Hm. destruct (prevRadioOf d n) as [m'|] eqn:E.
  - f_equal. eapply nearestBefore_unique; [|exact Hm].
    apply prevRadioOf_some; assumption.
  - destruct Hm as (j & -> & Hj & Hr & _).
    rewrite (prevRadioOf_none _ _ j Hn E Hj) in Hr. discriminate.
Qed.

(** Neighbours in the filtered index list have nothing selected by the
    filter between them. *)
Lemma filter_seq_adjacent (r : nat -> bool) : forall n a pre i j post,
  filter r (seq a n) = pre ++ i :: j :: post ->
  r i = true /\ r j = true /\ i < j /\
  forall k, i < k < j -> r k = false.
Proof.
  induction n as [|n IH]; intros a pre i j post H; simpl in H.
  - destruct pre; discriminate.
  - destruct (r a) eqn:E.
    + destruct pre as [|x pre]; simpl in H.
      * injection H as <- H.
        apply filter_seq_head in H as (Hr & Hle & Hk).
        split; [exact E|]. split; [exact Hr|]. split; [lia|].
        intros k Hk'. apply Hk. lia.
      * injection H as _ H. exact (IH _ _ _ _ _ H).
    + exact (IH _ _ _ _ _ H).
Qed.

Lemma nth_error_adjacent {A} (l : list A) k x y :
  nth_error l k = Some x -> nth_error l (S k) = Some y ->
  exists pre post, l = pre ++ x :: y :: post.
Proof.
  intros Hx Hy. apply nth_error_split in Hx as (pre & post & -> & Hlen).
  exists pre. rewrite nth_error_app2 in Hy by lia.
  replace (S k - length pre) with 1 in Hy by lia.
  destruct post as [|y' post]; [discriminate|].
  injection Hy as ->. exists post. reflexivity.
Qed.

(** In a uniform group, neighbours in the list of items are each other's
    nearest candidate sibling. *)
Lemma uniform_neighbours T d k cur nxt :
  uniformGroup T d = true ->
  nth_error (items d) k = Some cur ->
  nth_error (items d) (S k) = Some nxt ->
  nextRadioOf d cur = Some nxt /\ prevRadioOf d nxt = Some cur.
Proof.
  intros HU Hc Hn. rewrite (uniform_items T d HU) in Hc, Hn.
  rewrite nth_error_map in Hc, Hn.
  destruct (nth_error _ k) as [i|] eqn:Ei; [|discriminate].
  destruct (nth_error _ (S k)) as [j|] eqn:Ej; [|discriminate].
  injection Hc as <-. injection Hn as <-.
  destruct (nth_error_adjacent _ _ _ _ Ei Ej) as (pre & post & E).
  apply filter_seq_adjacent in E as (Hi & Hj & Hlt & Hbetween).
  split.
  - apply nextRadioOf_nearest; [discriminate|]. exists j.
    split; [reflexivity|]. split; [exact Hlt|]. split; [exact Hj|].
    exact Hbetween.
  - apply prevRadioOf_nearest; [discriminate|]. exists i.
    split; [reflexivity|]. split; [exact Hlt|]. split; [exact Hi|].
    exact Hbetween.
Qed.

Lemma nth_error_last {A} (l : list A) x :
  nth_error (l ++ [x]) (length l) = Some x.
Proof. rewrite nth_error_app2, Nat.sub_diag by lia. reflexivity. Qed.

Lemma items_distinct d i j x :
  nth_error (items d) i = Some x -> nth_error (items d) j = Some x -> i = j.
Proof.
  intros Hi Hj. pose proof (NoDup_items d) as ND.
  rewrite NoDup_nth_error in ND. apply ND.
  - apply nth_error_Some. congruence.
  - congruence.
Qed.

(** Where the next key goes: one step on, or round to the front. *)
Lemma next_step s T k cur :
  uniformGroup T (dom s) = true ->
  nth_error (items (dom s)) k = Some cur ->
  currentItem (dom s) = Some cur ->
  exists x, cyclicNext (items (dom s)) k = Some x /\
            _setCheckedToNextButton s = _setChecked (Some x) s.
Proof.
  intros HU Hk Hc. unfold cyclicNext.
  assert (Hlt : k < length (items (dom s))) by (apply nth_error_Some; congruence).
  destruct (exists_last (l := items (dom s))) as (mid' & lst & El).
  { intros E. rewrite E in Hlt. simpl in Hlt. lia. }
  assert (Hcons : exists first mid, items (dom s) = first :: mid).
  { destruct (items (dom s)) as [|first mid]; [simpl in Hlt; lia|eauto]. }
  destruct Hcons as (first & mid & Ef).
  assert (Hlast : nth_error (items (dom s)) (length mid') = Some lst).
  { rewrite El. apply nth_error_last. }
  assert (Hlen : length (items (dom s)) = S (length mid')).
  { rewrite El, length_app. simpl. lia. }
  destruct (Nat.eq_dec k (length mid')) as [->|Hne].
  - assert (cur = lst) by congruence. subst lst.
    exists first. split.
    + rewrite Hlen. replace (length mid' + 1) with (S (length mid')) by lia.
      rewrite Nat.Div0.mod_same, Ef. reflexivity.
    + exact (next_wraps s T first mid mid' cur HU Ef El Hc).
  - assert (HS : S k < length (items (dom s))) by lia.
    destruct (nth_error (items (dom s)) (S k)) as [nxt|] eqn:En;
      [|apply nth_error_None in En; lia].
    exists nxt. split.
    + replace (k + 1) with (S k) by lia. rewrite Nat.mod_small by exact HS.
      exact En.
    + destruct (uniform_neighbours T _ k cur nxt HU Hk En) as [Hnext _].
      unfold _setCheckedToNextButton, bind.
      rewrite checkedOrFirst_run, Hc.
      unfold lastRadioButton, _nextRadioButton, gets, bind.
      rewrite (uniform_lastRadioButton T _ _ _ HU El).
      cbn [sameNode]. rewrite nodeEqb_neq.
      * unfold deref, ret. rewrite Hnext. reflexivity.
      * intros ->. apply Hne. exact (items_distinct _ _ _ _ Hk Hlast).
Qed.

(** Where the previous key goes: one step back, or round to the end. *)
Lemma prev_step s T k cur :
  uniformGroup T (dom s) = true ->
  nth_error (items (dom s)) k = Some cur ->
  currentItem (dom s) = Some cur ->
  exists x, cyclicPrev (items (dom s)) k = Some x /\
            _setCheckedToPrevButton s = _setChecked (Some x) s.
Proof.
  intros HU Hk Hc. unfold cyclicPrev.
  assert (Hlt : k < length (items (dom s))) by (apply nth_error_Some; congruence).
  destruct (exists_last (l := items (dom s))) as (mid' & lst & El).
  { intros E. rewrite E in Hlt. simpl in Hlt. lia. }
  assert (Hcons : exists first mid, items (dom s) = first :: mid).
  { destruct (items (dom s)) as [|first mid]; [simpl in Hlt; lia|eauto]. }
  destruct Hcons as (first & mid & Ef).
  assert (Hlast : nth_error (items (dom s)) (length mid') = Some lst).
  { rewrite El. apply nth_error_last. }
  assert (Hfirst : nth_error (items (dom s)) 0 = Some first).
  { rewrite Ef. reflexivity. }
  assert (Hlen : length (items (dom s)) = S (length mid')).
  { rewrite El, length_app. simpl. lia. }
  destruct k as [|k'].
  - assert (cur = first) by congruence. subst first.
    exists lst. split.
    + rewrite Hlen. replace (0 + S (length mid') - 1) with (length mid') by lia.
      rewrite Nat.mod_small by lia. exact Hlast.
    + exact (prev_wraps s T cur mid mid' lst HU Ef El Hc).
  - destruct (nth_error (items (dom s)) k') as [prv|] eqn:Ep;
      [|apply nth_error_None in Ep; lia].
    exists prv. split.
    + replace (S k' + length (items (dom s)) - 1)
        with (k' + 1 * length (items (dom s))) by lia.
      rewrite Nat.Div0.mod_add, Nat.mod_small by lia. exact Ep.
    + destruct (uniform_neighbours T _ k' prv cur HU Ep Hk) as [_ Hprev].
      unfold _setCheckedToPrevButton, bind.
      rewrite checkedOrFirst_run, Hc.
      unfold firstRadioButton, _prevRadioButton, gets, bind.
      rewrite (uniform_firstRadioButton T _ HU), Ef. cbn [hd_error sameNode].
      rewrite nodeEqb_neq.
      * unfold deref, ret. rewrite Hprev. reflexivity.
      * intros ->.
        pose proof (items_distinct _ _ _ _ Hk Hfirst). discriminate.
Qed.

(** X8.  Arrow keys move round the group.  In a uniform group, let the
    current item (the first node with [aria-checked="true"], else the first
    item) be the item at position [k] in document order.  Then
    [_setCheckedToNextButton] completes normally and leaves the item at
    position [k + 1], counted round the end, as the one selected and
    focusable item, with one focus request for it; and
    [_setCheckedToPrevButton] does the same with the item at position
    [k - 1], counted round the front. *)
Theorem arrow_keys_move_cyclically
    (s : State) (T : string) (k : nat) (cur : NodeRef) :
  uniformGroup T (dom s) = true ->
  nth_error (items (dom s)) k = Some cur ->
  currentItem (dom s) = Some cur ->
  (exists x, cyclicNext (items (dom s)) k = Some x /\
     outcome _setCheckedToNextButton s = Normal tt /\
     selectedItems (dom (exec _setCheckedToNextButton s)) = [x] /\
     focusableItems (dom (exec _setCheckedToNextButton s)) = [x] /\
     focusRequests (trace (exec _setCheckedToNextButton s))
     = focusRequests (trace s) ++ [x]) /\
  (exists x, cyclicPrev (items (dom s)) k = Some x /\
     outcome _setCheckedToPrevButton s = Normal tt /\
     selectedItems (dom (exec _setCheckedToPrevButton s)) = [x] /\
     focusableItems (dom (exec _setCheckedToPrevButton s)) = [x] /\
     focusRequests (trace (exec _setCheckedToPrevButton s))
     = focusRequests (trace s) ++ [x]).
Proof.
  intros HU Hk Hc. split.
  - destruct (next_step s T k cur HU Hk Hc) as (x & Hx & E).
    exists x. split; [exact Hx|]. unfold outcome, exec. rewrite E.
    apply setChecked_item. unfold cyclicNext in Hx.
    exact (nth_error_In _ _ Hx).
  - destruct (prev_step s T k cur HU Hk Hc) as (x & Hx & E).
    exists x. split; [exact Hx|]. unfold outcome, exec. rewrite E.
    apply setChecked_item. unfold cyclicPrev in Hx.
    exact (nth_error_In _ _ Hx).
Qed.

Lemma arrow_keys_move_cyclically_witness :
  uniformGroup "dash-radio-button" (dom (initial lastChecked)) = true /\
  nth_error (items (dom (initial lastChecked))) 2 = Some [3] /\
  currentItem (dom (initial lastChecked)) = Some [3] /\
  exists x, cyclicPrev (items (dom (initial lastChecked))) 2 = Some x /\
            selectedItems (dom (exec _setCheckedToPrevButton
                                     (initial lastChecked))) = [x].
Proof.
  assert (HU : uniformGroup "dash-radio-button" (dom (initial lastChecked))
               = true) by reflexivity.
  assert (Hk : nth_error (items (dom (initial lastChecked))) 2 = Some [3])
    by reflexivity.
  assert (Hc : currentItem (dom (initial lastChecked)) = Some [3])
    by reflexivity.
  split; [exact HU|]. split; [exact Hk|]. split; [exact Hc|].
  destruct (proj2 (arrow_keys_move_cyclically (initial lastChecked)
                     "dash-radio-button" 2 [3] HU Hk Hc))
    as (x & H1 & _ & H2 & _).
  exists x. split; assumption.
Defined.

(** *** The layout is kept *)

Lemma sameLayout_refl d : sameLayout d d.
Proof. split; reflexivity. Qed.

Lemma sameLayout_trans d1 d2 d3 :
  sameLayout d1 d2 -> sameLayout d2 d3 -> sameLayout d1 d3.
Proof.
  intros [H1 H1'] [H2 H2']. split; [congruence|].
  intros p. rewrite H2', H1'. reflexivity.
Qed.

Lemma sameLayout_uncheckAllDom d : sameLayout d (uncheckAllDom d).
Proof.
  split; [apply descendants_uncheckAllDom|]. intros p.
  rewrite attrsAt_uncheckAllDom.
  destruct (isItem d p), (attrsAt d p); reflexivity.
Qed.

Lemma sameLayout_checkNode n d : sameLayout d (checkNode n d).
Proof.
  split; [apply descendants_checkNode|]. intros p.
  rewrite attrsAt_checkNode.
  destruct (nodeEqb n p), (attrsAt d p); reflexivity.
Qed.

Lemma sameLayout_select n d : sameLayout d (checkNode n (uncheckAllDom d)).
Proof.
  eapply sameLayout_trans;
    [apply sameLayout_uncheckAllDom|apply sameLayout_checkNode].
Qed.

Lemma sameLayout_isRadio d d' p :
  sameLayout d d' -> isRadio d' p = isRadio d p.
Proof.
  intros [_ H]. specialize (H p). unfold isRadio.
  destruct (attrsAt d' p), (attrsAt d p); simpl in H; try discriminate;
    [|reflexivity].
  injection H as _ ->. reflexivity.
Qed.

Lemma sameLayout_items d d' : sameLayout d d' -> items d' = items d.
Proof.
  intros H. apply items_ext; [apply H|].
  intros p. apply sameLayout_isRadio, H.
Qed.

Lemma attrsAt_child d i :
  attrsAt d [i] = option_map attrsOf (nth_error (childrenOf d) i).
Proof.
  unfold attrsAt. simpl. destruct (nth_error (childrenOf d) i); reflexivity.
Qed.

Lemma sameLayout_uniformGroup T d d' :
  sameLayout d d' -> uniformGroup T d = true -> uniformGroup T d' = true.
Proof.
  intros HL. pose proof (sameLayout_items _ _ HL) as Hit.
  destruct HL as [_ HL]. unfold uniformGroup. rewrite !andb_true_iff, Hit.
  intros [H1 H2]. split; [exact H1|].
  rewrite forallb_forall in *. intros k' Hk'.
  apply In_nth_error in Hk' as (i & Hi).
  specialize (HL [i]). rewrite !attrsAt_child, Hi in HL.
  destruct (nth_error (childrenOf d) i) as [k0|] eqn:E0; [|discriminate].
  simpl in HL. injection HL as Ht Hr. rewrite Ht, Hr.
  exact (H2 k0 (nth_error_In _ _ E0)).
Qed.

Lemma onlyItemsChecked_uncheckAll d :
  onlyItemsChecked d -> onlyItemsChecked (uncheckAllDom d).
Proof.
  intros H p Hp Hs. rewrite descendants_uncheckAllDom in Hp.
  rewrite isRadio_uncheckAllDom.
  destruct (isItem d p) eqn:Ei; [exact (isItem_radio _ _ Ei)|].
  apply H; [exact Hp|]. unfold isSelected in *.
  rewrite attrsAt_uncheckAllDom, Ei in Hs. exact Hs.
Qed.

Lemma onlyItemsChecked_select d x :
  onlyItemsChecked d -> In x (items d) \/ x = [] ->
  onlyItemsChecked (checkNode x (uncheckAllDom d)).
Proof.
  intros H Hx p Hp Hs.
  rewrite descendants_checkNode in Hp.
  rewrite isRadio_checkNode.
  destruct (nodeEqb x p) eqn:E.
  - apply nodeEqb_eq in E. subst p. destruct Hx as [Hx| ->].
    + rewrite isRadio_uncheckAllDom. apply in_items in Hx. tauto.
    + rewrite descendants_uncheckAllDom in Hp.
      apply in_descendants_nonnil in Hp. contradiction.
  - apply (onlyItemsChecked_uncheckAll d H p Hp).
    unfold isSelected in *. rewrite attrsAt_checkNode, E in Hs. exact Hs.
Qed.

Lemma current_after_select d x :
  onlyItemsChecked d -> In x (items d) ->
  currentItem (checkNode x (uncheckAllDom d)) = Some x.
Proof.
  intros H Hx. unfold currentItem.
  rewrite checked_is_first_selected
    by (apply onlyItemsChecked_select; [exact H|left; exact Hx]).
  rewrite selectedItems_after_select.
  apply isItem_in in Hx. rewrite Hx. reflexivity.
Qed.

Lemma cyc_next_prev N k : k < N -> ((k + 1) mod N + N - 1) mod N = k.
Proof.
  intros H. destruct (Nat.eq_dec (k + 1) N) as [E|E].
  - rewrite E, Nat.Div0.mod_same. simpl. rewrite Nat.mod_small; lia.
  - rewrite (Nat.mod_small (k + 1)) by lia.
    replace (k + 1 + N - 1) with (k + 1 * N) by lia.
    rewrite Nat.Div0.mod_add. apply Nat.mod_small. exact H.
Qed.

Lemma cyc_prev_next N k : k < N -> ((k + N - 1) mod N + 1) mod N = k.
Proof.
  intros H. destruct k as [|k'].
  - simpl. rewrite (Nat.mod_small (N - 1)) by lia.
    replace (N - 1 + 1) with N by lia. apply Nat.Div0.mod_same.
  - replace (S k' + N - 1) with (k' + 1 * N) by lia.
    rewrite Nat.Div0.mod_add, (Nat.mod_small k') by lia.
    rewrite Nat.mod_small; lia.
Qed.

Lemma setChecked_dom n s :
  dom (exec (_setChecked (Some n)) s) = checkNode n (uncheckAllDom (dom s)).
Proof. unfold exec. rewrite setChecked_run. reflexivity. Qed.

(** X9.  There and back.  In a uniform group in which only items carry
    [aria-checked="true"], pressing next and then previous, or previous and
    then next, completes normally both times and ends with the item that
    was current at the start as the one selected and focusable item. *)
Theorem next_and_prev_undo_each_other
    (s : State) (T : string) (k : nat) (cur : NodeRef) :
  uniformGroup T (dom s) = true ->
  onlyItemsChecked (dom s) ->
  nth_error (items (dom s)) k = Some cur ->
  currentItem (dom s) = Some cur ->
  let s1 := exec _setCheckedToNextButton s in
  let s2 := exec _setCheckedToPrevButton s1 in
  let t1 := exec _setCheckedToPrevButton s in
  let t2 := exec _setCheckedToNextButton t1 in
  (outcome _setCheckedToNextButton s = Normal tt /\
   outcome _setCheckedToPrevButton s1 = Normal tt /\
   selectedItems (dom s2) = [cur] /\ focusableItems (dom s2) = [cur]) /\
  (outcome _setCheckedToPrevButton s = Normal tt /\
   outcome _setCheckedToNextButton t1 = Normal tt /\
   selectedItems (dom t2) = [cur] /\ focusableItems (dom t2) = [cur]).
Proof.
  intros HU Honly Hk Hc s1 s2 t1 t2. subst s2 s1 t2 t1.
  assert (Hlt : k < length (items (dom s))) by (apply nth_error_Some; congruence).
  split.
  - destruct (next_step s T k cur HU Hk Hc) as (x & Hx & E).
    unfold cyclicNext in Hx. pose proof (nth_error_In _ _ Hx) as Hxin.
    assert (Ho : outcome _setCheckedToNextButton s = Normal tt).
    { unfold outcome. rewrite E, setChecked_run. reflexivity. }
    assert (Es : exec _setCheckedToNextButton s = exec (_setChecked (Some x)) s).
    { unfold exec. rewrite E. reflexivity. }
    rewrite Es. clear Es.
    set (s1 := exec (_setChecked (Some x)) s).
    assert (Hd1 : dom s1 = checkNode x (uncheckAllDom (dom s)))
      by apply setChecked_dom.
    assert (Hit : items (dom s1) = items (dom s)).
    { rewrite Hd1. apply sameLayout_items, sameLayout_select. }
    assert (HU1 : uniformGroup T (dom s1) = true).
    { rewrite Hd1. eapply sameLayout_uniformGroup; [apply sameLayout_select|].
      exact HU. }
    assert (Hc1 : currentItem (dom s1) = Some x).
    { rewrite Hd1. apply current_after_select; assumption. }
    assert (Hk1 : nth_error (items (dom s1))
                            ((k + 1) mod length (items (dom s))) = Some x).
    { rewrite Hit. exact Hx. }
    destruct (prev_step s1 T _ x HU1 Hk1 Hc1) as (y & Hy & E1).
    unfold cyclicPrev in Hy. rewrite Hit, cyc_next_prev in Hy by exact Hlt.
    assert (y = cur) by congruence. subst y.
    assert (Hin1 : In cur (items (dom s1))).
    { rewrite Hit. exact (nth_error_In _ _ Hk). }
    split; [exact Ho|].
    unfold outcome, exec. rewrite E1.
    destruct (setChecked_item s1 cur Hin1) as (H1 & H2 & H3 & _).
    repeat split; assumption.
  - destruct (prev_step s T k cur HU Hk Hc) as (x & Hx & E).
    unfold cyclicPrev in Hx. pose proof (nth_error_In _ _ Hx) as Hxin.
    assert (Ho : outcome _setCheckedToPrevButton s = Normal tt).
    { unfold outcome. rewrite E, setChecked_run. reflexivity. }
    assert (Es : exec _setCheckedToPrevButton s = exec (_setChecked (Some x)) s).
    { unfold exec. rewrite E. reflexivity. }
    rewrite Es. clear Es.
    set (s1 := exec (_setChecked (Some x)) s).
    assert (Hd1 : dom s1 = checkNode x (uncheckAllDom (dom s)))
      by apply setChecked_dom.
    assert (Hit : items (dom s1) = items (dom s)).
    { rewrite Hd1. apply sameLayout_items, sameLayout_select. }
    assert (HU1 : uniformGroup T (dom s1) = true).
    { rewrite Hd1. eapply sameLayout_uniformGroup; [apply sameLayout_select|].
      exact HU. }
    assert (Hc1 : currentItem (dom s1) = Some x).
    { rewrite Hd1. apply current_after_select; assumption. }
    assert (Hk1 : nth_error (items (dom s1))
                    ((k + length (items (dom s)) - 1)
                     mod length (items (dom s))) = Some x).
    { rewrite Hit. exact Hx. }
    destruct (next_step s1 T _ x HU1 Hk1 Hc1) as (y & Hy & E1).
    unfold cyclicNext in Hy. rewrite Hit, cyc_prev_next in Hy by exact Hlt.
    assert (y = cur) by congruence. subst y.
    assert (Hin1 : In cur (items (dom s1))).
    { rewrite Hit. exact (nth_error_In _ _ Hk). }
    split; [exact Ho|].
    unfold outcome, exec. rewrite E1.
    destruct (setChecked_item s1 cur Hin1) as (H1 & H2 & H3 & _).
    repeat split; assumption.
Qed.

Lemma next_and_prev_undo_each_other_witness :
  uniformGroup "dash-radio-button" (dom (initial secondChecked)) = true /\
  onlyItemsChecked (dom (initial secondChecked)) /\
  nth_error (items (dom (initial secondChecked))) 1 = Some [1] /\
  currentItem (dom (initial secondChecked)) = Some [1] /\
  selectedItems (dom (exec _setCheckedToPrevButton
                        (exec _setCheckedToNextButton (initial secondChecked))))
  = [[1]].
Proof.
  assert (HU : uniformGroup "dash-radio-button" (dom (initial secondChecked))
               = true) by reflexivity.
  assert (Honly : onlyItemsChecked (dom (initial secondChecked))).
  { intros p Hp _. simpl in Hp.
    destruct Hp as [<-|[<-|[<-|[]]]]; reflexivity. }
  assert (Hk : nth_error (items (dom (initial secondChecked))) 1 = Some [1])
    by reflexivity.
  assert (Hc : currentItem (dom (initial secondChecked)) = Some [1])
    by reflexivity.
  split; [exact HU|]. split; [exact Honly|]. split; [exact Hk|].
  split; [exact Hc|].
  exact (proj1 (proj2 (proj2 (proj1
           (next_and_prev_undo_each_other (initial secondChecked)
              "dash-radio-button" 1 [1] HU Honly Hk Hc))))).
Defined.

(** *** No event throws in the documented layout *)

Lemma wellFormed_current T d :
  wellFormed T d ->
  exists k cur, nth_error (items d) k = Some cur /\ currentItem d = Some cur.
Proof.
  intros (HU & Honly & Hne). unfold currentItem.
  rewrite (checked_is_first_selected _ Honly).
  destruct (selectedItems d) as [|c rest] eqn:Es; cbn [hd_error orElse].
  - rewrite (uniform_firstRadioButton T d HU).
    destruct (items d) as [|f l]; [contradiction|].
    exists 0, f. split; reflexivity.
  - assert (Hin : In c (items d)).
    { assert (H : In c (selectedItems d)) by (rewrite Es; left; reflexivity).
      unfold selectedItems in H. apply filter_In in H. tauto. }
    apply In_nth_error in Hin as (k & Hk). exists k, c. split; [exact Hk|].
    reflexivity.
Qed.

Lemma wellFormed_same T d d' :
  sameLayout d d' -> onlyItemsChecked d' ->
  wellFormed T d -> wellFormed T d'.
Proof.
  intros HL Honly' (HU & _ & Hne). split; [|split].
  - exact (sameLayout_uniformGroup T _ _ HL HU).
  - exact Honly'.
  - rewrite (sameLayout_items _ _ HL). exact Hne.
Qed.

Lemma wellFormed_handle T s ev :
  wellFormed T (dom s) -> wellFormed T (dom (exec (handle ev) s)).
Proof.
  intros HW. pose proof (handled s ev) as H.
  remember (outcome (handle ev) s) as o eqn:Eo.
  remember (exec (handle ev) s) as s' eqn:Es'.
  destruct H as [Hno|x Hsel Hx Hclick|k Hev Harrow|k Hev Harrow Hn];
    cbn [dom logged].
  - exact HW.
  - apply (wellFormed_same T (dom s)); [apply sameLayout_select| |exact HW].
    apply onlyItemsChecked_select; [apply HW|].
    destruct Hx as [Hx|Hx]; [left; exact Hx|right].
    exact (Hclick [] Hx).
  - apply (wellFormed_same T (dom s)); [apply sameLayout_uncheckAllDom| |exact HW].
    apply onlyItemsChecked_uncheckAll, HW.
  - exact HW.
Qed.

Lemma wellFormed_run T evs : forall s,
  wellFormed T (dom s) -> wellFormed T (dom (run evs s)).
Proof.
  induction evs as [|ev evs IH]; intros s HW; simpl; [exact HW|].
  apply IH, wellFormed_handle, HW.
Qed.

Lemma wellFormed_no_throw T s ev :
  wellFormed T (dom s) -> outcome (handle ev) s = Normal tt.
Proof.
  intros HW. destruct (wellFormed_current T _ HW) as (k & cur & Hk & Hc).
  destruct HW as (HU & _ & _).
  unfold outcome. destruct ev as [key|t]; cbn [handle].
  - unfold _onKeyDown.
    destruct ((key =? KEYCODE.UP)%Z || (key =? KEYCODE.LEFT)%Z).
    + rewrite preventDefault_then.
      destruct (prev_step (logged s [PreventDefault]) T k cur HU Hk Hc)
        as (x & _ & E).
      rewrite E, setChecked_run. reflexivity.
    + destruct ((key =? KEYCODE.DOWN)%Z || (key =? KEYCODE.RIGHT)%Z);
        [|reflexivity].
      rewrite preventDefault_then.
      destruct (next_step (logged s [PreventDefault]) T k cur HU Hk Hc)
        as (x & _ & E).
      rewrite E, setChecked_run. reflexivity.
  - unfold _onClick, bind, gets. destruct (isRadio (dom s) t); [|reflexivity].
    rewrite setChecked_run. reflexivity.
Qed.

(** X10.  The documented layout is safe.  Take a uniform group with at least
    one item in which only items carry [aria-checked="true"].  Whatever
    keys are pressed and whatever is clicked, the group stays such a group
    with the same items, and no handler ever throws. *)
Theorem documented_layout_never_throws
    (s : State) (T : string) (evs : list Event) (ev : Event) :
  wellFormed T (dom s) ->
  wellFormed T (dom (run evs s)) /\
  items (dom (run evs s)) = items (dom s) /\
  outcome (handle ev) (run evs s) = Normal tt.
Proof.
  intros HW. split; [apply wellFormed_run, HW|]. split.
  - clear HW. revert s. induction evs as [|e evs IH]; intros s; simpl;
      [reflexivity|].
    rewrite IH. pose proof (handled s e) as H.
    remember (outcome (handle e) s) as o eqn:Eo.
    remember (exec (handle e) s) as s' eqn:Es'.
    destruct H; cbn [dom logged]; try reflexivity.
    + apply sameLayout_items, sameLayout_select.
    + apply items_uncheckAllDom.
  - apply (wellFormed_no_throw T), wellFormed_run, HW.
Qed.

Lemma documented_layout_never_throws_witness :
  wellFormed "dash-radio-button" (dom (initial labelled)) /\
  outcome (handle (KeyDown 37))
          (run [KeyDown 40; Click [1]; KeyDown 39] (initial labelled))
  = Normal tt.
Proof.
  assert (HW : wellFormed "dash-radio-button" (dom (initial labelled))).
  { split; [reflexivity|]. split; [|discriminate].
    intros p Hp H. simpl in Hp.
    destruct Hp as [<-|[<-|[<-|[<-|[<-|[]]]]]]; first [reflexivity|discriminate H]. }
  split; [exact HW|].
  exact (proj2 (proj2 (documented_layout_never_throws (initial labelled)
           "dash-radio-button" [KeyDown 40; Click [1]; KeyDown 39]
           (KeyDown 37) HW))).
Defined.

(* ================================================================== *)
(** ** Tab stops after attaching, and what a click forgets *)

Lemma connected_unchecked_focusable s first rest :
  querySelector isSelected (dom s) = None ->
  items (dom s) = first :: rest ->
  outcome connectedCallback s = Normal tt /\
  items (dom (exec connectedCallback s)) = items (dom s) /\
  selectedItems (dom (exec connectedCallback s)) = [] /\
  forall p, In p (items (dom s)) ->
    isFocusable (dom (exec connectedCallback s)) p
    = nodeEqb first p || isFocusable (dom s) p.
Proof.
  intros Hc Hit. unfold outcome, exec.
  assert (Hf : querySelector isRadio (dom s) = Some first).
  { rewrite first_is_hd_items, Hit. reflexivity. }
  rewrite (connected_unchecked s first Hc Hf). cbn [fst snd dom].
  split; [reflexivity|]. split; [rewrite items_setTab; apply items_hostDom|].
  split.
  { rewrite selectedItems_setTab, selectedItems_hostDom.
    apply nothing_checked_no_selection, Hc. }
  intros p Hp. apply in_items in Hp as [Hpd Hpr].
  pose proof (in_descendants_nonnil _ _ Hpd) as Hpn.
  pose proof (radio_has_attrs _ _ Hpr) as Hpa.
  unfold isFocusable.
  rewrite attrsAt_updateAt, attrsAt_hostDom by exact Hpn.
  destruct (nodeEqb first p), (attrsAt (dom s) p);
    try reflexivity; contradiction.
Qed.

(** X11.  The tab stops after attaching with nothing checked.  When no
    descendant carries [aria-checked="true"] and the group has items,
    [connectedCallback] completes normally, no item is selected, and the
    focusable items are the first item followed by those of the other items
    that were focusable before: the group is a single tab stop exactly when
    no item after the first had [tabindex] 0. *)
Theorem attach_unchecked_tab_stops
    (s : State) (first : NodeRef) (rest : list NodeRef) :
  querySelector isSelected (dom s) = None ->
  items (dom s) = first :: rest ->
  let s' := exec connectedCallback s in
  outcome connectedCallback s = Normal tt /\
  selectedItems (dom s') = [] /\
  focusableItems (dom s') = first :: filter (isFocusable (dom s)) rest.
Proof.
  intros Hc Hit s'. subst s'.
  destruct (connected_unchecked_focusable s first rest Hc Hit)
    as (Ho & Hitems & Hsel & Hfoc).
  split; [exact Ho|]. split; [exact Hsel|].
  unfold focusableItems. rewrite Hitems, Hit. cbn [filter].
  pose proof (NoDup_items (dom s)) as ND. rewrite Hit in ND.
  inversion ND as [|? ? Hnotin _]; subst.
  rewrite Hfoc by (rewrite Hit; left; reflexivity).
  rewrite nodeEqb_refl. cbn [orb]. f_equal.
  apply filter_ext_in. intros p Hp.
  rewrite Hfoc by (rewrite Hit; right; exact Hp).
  rewrite nodeEqb_neq; [reflexivity|]. intros ->. contradiction.
Qed.

Lemma attach_unchecked_tab_stops_witness :
  querySelector isSelected (dom (initial abc)) = None /\
  items (dom (initial abc)) = [0] :: [[1]; [2]] /\
  focusableItems (dom (exec connectedCallback (initial abc)))
  = [0] :: filter (isFocusable (dom (initial abc))) [[1]; [2]].
Proof.
  assert (Hc : querySelector isSelected (dom (initial abc)) = None)
    by reflexivity.
  assert (Hit : items (dom (initial abc)) = [0] :: [[1]; [2]]) by reflexivity.
  split; [exact Hc|]. split; [exact Hit|].
  exact (proj2 (proj2 (attach_unchecked_tab_stops (initial abc) [0] [[1]; [2]]
                         Hc Hit))).
Defined.

Lemma sameLayout_isItem d d' p : sameLayout d d' -> isItem d' p = isItem d p.
Proof. intros H. unfold isItem. rewrite (sameLayout_items _ _ H). reflexivity. Qed.

Lemma similar_refl d : similar d d.
Proof. split; [apply sameLayout_refl|reflexivity]. Qed.

Lemma similar_trans d1 d2 d3 : similar d1 d2 -> similar d2 d3 -> similar d1 d3.
Proof.
  intros [L1 H1] [L2 H2]. split; [exact (sameLayout_trans _ _ _ L1 L2)|].
  intros p Hp Hi. rewrite H2, H1; auto.
  rewrite (sameLayout_isItem _ _ p L1). exact Hi.
Qed.

Lemma similar_uncheckAllDom d : similar d (uncheckAllDom d).
Proof.
  split; [apply sameLayout_uncheckAllDom|].
  intros p _ Hi. rewrite attrsAt_uncheckAllDom, Hi. reflexivity.
Qed.

Lemma similar_select d x :
  In x (items d) \/ x = [] -> similar d (checkNode x (uncheckAllDom d)).
Proof.
  intros Hx. split; [apply sameLayout_select|].
  intros p Hp Hi. rewrite attrsAt_checkNode, attrsAt_uncheckAllDom, Hi.
  rewrite nodeEqb_neq; [reflexivity|].
  intros ->. destruct Hx as [Hx|Hx]; [|contradiction].
  apply isItem_in in Hx. congruence.
Qed.

Lemma similar_handle s ev : similar (dom s) (dom (exec (handle ev) s)).
Proof.
  pose proof (handled s ev) as H.
  remember (outcome (handle ev) s) as o eqn:Eo.
  remember (exec (handle ev) s) as s' eqn:Es'.
  destruct H as [Hno|x Hsel Hx Hclick|k Hev Harrow|k Hev Harrow Hn];
    cbn [dom logged].
  - apply similar_refl.
  - apply similar_select. destruct Hx as [Hx|Hx]; [left; exact Hx|right].
    exact (Hclick [] Hx).
  - apply similar_uncheckAllDom.
  - apply similar_refl.
Qed.

Lemma similar_run evs : forall s, similar (dom s) (dom (run evs s)).
Proof.
  induction evs as [|ev evs IH]; intros s; simpl; [apply similar_refl|].
  eapply similar_trans; [apply similar_handle|apply IH].
Qed.

Lemma select_similar d d' t p :
  similar d d' -> p <> [] ->
  attrsAt (checkNode t (uncheckAllDom d')) p
  = attrsAt (checkNode t (uncheckAllDom d)) p.
Proof.
  intros [L H] Hp.
  rewrite !attrsAt_checkNode, !attrsAt_uncheckAllDom,
    (sameLayout_isItem _ _ p L).
  destruct (isItem d p) eqn:Ei.
  - destruct L as [_ L]. specialize (L p).
    destruct (attrsAt d' p) as [a'|], (attrsAt d p) as [a|]; simpl in L;
      try discriminate; [|reflexivity].
    injection L as Ht Hr.
    assert (E : cleared a' = cleared a).
    { unfold cleared, withTabindex, withAriaChecked. simpl.
      rewrite Ht, Hr. reflexivity. }
    cbn [option_map]. rewrite E. reflexivity.
  - rewrite (H p Hp Ei). reflexivity.
Qed.

(** X12.  A click forgets the history.  After a click on an item, every
    node below the host has the attributes it would have had if that click
    had been the only event: whatever keys were pressed and whatever was
    clicked before makes no difference, and the clicked item is the one
    selected and focusable item. *)
Theorem click_forgets_history
    (s : State) (evs : list Event) (t : NodeRef) :
  In t (items (dom s)) ->
  (forall p, p <> [] ->
     attrsAt (dom (run (evs ++ [Click t]) s)) p
     = attrsAt (dom (run [Click t] s)) p) /\
  selectedItems (dom (run (evs ++ [Click t]) s)) = [t] /\
  focusableItems (dom (run (evs ++ [Click t]) s)) = [t].
Proof.
  intros Ht. rewrite run_snoc. cbn [run handle].
  pose proof (similar_run evs s) as HS.
  assert (Hit : items (dom (run evs s)) = items (dom s))
    by (apply sameLayout_items, HS).
  assert (Hr : isRadio (dom s) t = true) by (apply in_items in Ht; tauto).
  assert (Hr' : isRadio (dom (run evs s)) t = true).
  { rewrite (sameLayout_isRadio _ _ t (proj1 HS)). exact Hr. }
  unfold exec, _onClick, bind, gets. rewrite Hr, Hr', !setChecked_run.
  cbn [snd dom]. split; [|split].
  - intros p Hp. apply select_similar; assumption.
  - rewrite selectedItems_after_select. unfold isItem. rewrite Hit.
    fold (isItem (dom s) t). apply isItem_in in Ht. rewrite Ht. reflexivity.
  - rewrite focusableItems_after_select. unfold isItem. rewrite Hit.
    fold (isItem (dom s) t). apply isItem_in in Ht. rewrite Ht. reflexivity.
Qed.

Lemma click_forgets_history_witness :
  In [0] (items (dom (initial trailingDiv))) /\
  selectedItems (dom (run ([KeyDown 40; KeyDown 38] ++ [Click [0]])
                          (initial trailingDiv))) = [[0]].
Proof.
  assert (Ht : In [0] (items (dom (initial trailingDiv))))
    by (left; reflexivity).
  split; [exact Ht|].
  exact (proj1 (proj2 (click_forgets_history (initial trailingDiv)
                         [KeyDown 40; KeyDown 38] [0] Ht))).
Defined.

(* ================================================================== *)
(** ** Loading the script on parsed markup *)










(* ================================================================== *)
(** ** From attach on *)

Lemma childrenOf_hostDom d : childrenOf (hostDom d) = childrenOf d.
Proof. destruct d. reflexivity. Qed.

Lemma onlyItemsChecked_hostDom d :
  onlyItemsChecked d -> onlyItemsChecked (hostDom d).
Proof.
  intros H p Hp Hs. rewrite descendants_hostDom in Hp.
  pose proof (in_descendants_nonnil _ _ Hp) as Hn.
  rewrite isRadio_hostDom by exact Hn. rewrite isSelected_hostDom in Hs by exact Hn.
  exact (H p Hp Hs).
Qed.

Lemma wellFormed_hostDom T d : wellFormed T d -> wellFormed T (hostDom d).
Proof.
  intros (HU & Honly & Hne). split; [|split].
  - unfold uniformGroup in *. rewrite items_hostDom, childrenOf_hostDom. exact HU.
  - apply onlyItemsChecked_hostDom, Honly.
  - rewrite items_hostDom. exact Hne.
Qed.

Lemma sameLayout_setTab z f d : sameLayout d (updateAt (withTabindex z) f d).
Proof.
  split; [apply descendants_updateAt|]. intros p. rewrite attrsAt_updateAt.
  destruct (nodeEqb f p), (attrsAt d p); reflexivity.
Qed.

Lemma onlyItemsChecked_setTab z f d :
  onlyItemsChecked d -> onlyItemsChecked (updateAt (withTabindex z) f d).
Proof.
  intros H p Hp Hs. rewrite descendants_updateAt in Hp.
  rewrite isRadio_setTab. rewrite isSelected_setTab in Hs. exact (H p Hp Hs).
Qed.

Lemma host_not_radio_hostDom d : isRadio (hostDom d) [] = false.
Proof.
  unfold isRadio. rewrite attrsAt_root_hostDom.
  destruct (attrsAt d []); reflexivity.
Qed.

Lemma rovingOk_select d x :
  isRadio d [] = false -> In x (items d) ->
  rovingOk (checkNode x (uncheckAllDom d)).
Proof.
  intros Hh Hx. unfold rovingOk.
  rewrite (sameLayout_isRadio _ _ [] (sameLayout_select x d)).
  rewrite selectedItems_after_select, focusableItems_after_select.
  apply isItem_in in Hx. rewrite Hx.
  split; [exact Hh|]. split; [simpl; lia|]. split; [discriminate|].
  apply incl_refl.
Qed.

(** Attaching a well-formed group. *)
Lemma wellFormed_attach T s :
  wellFormed T (dom s) ->
  outcome connectedCallback s = Normal tt /\
  wellFormed T (dom (exec connectedCallback s)) /\
  rovingOk (dom (exec connectedCallback s)).
Proof.
  intros HW. pose proof (wellFormed_hostDom T _ HW) as HWh.
  destruct HW as (HU & Honly & Hne). unfold outcome, exec.
  pose proof (checked_is_first_selected _ Honly) as Hc.
  destruct (selectedItems (dom s)) as [|c rest] eqn:Es; cbn [hd_error] in Hc.
  - destruct (items (dom s)) as [|first others] eqn:Eit; [contradiction|].
    destruct (connected_unchecked_focusable s first others Hc Eit)
      as (Ho & Hit' & Hsel & Hfoc).
    assert (Hf : querySelector isRadio (dom s) = Some first).
    { rewrite first_is_hd_items, Eit. reflexivity. }
    unfold outcome, exec in *.
    split; [exact Ho|]. split.
    + rewrite (connected_unchecked s first Hc Hf). cbn [snd dom].
      apply (wellFormed_same T (hostDom (dom s)));
        [apply sameLayout_setTab| |exact HWh].
      apply onlyItemsChecked_setTab, HWh.
    + unfold rovingOk. rewrite Hsel. split; [|split; [simpl; lia|split]].
      * rewrite (connected_unchecked s first Hc Hf). cbn [snd dom].
        rewrite isRadio_setTab. apply host_not_radio_hostDom.
      * unfold focusableItems. rewrite Hit', Eit. cbn [filter].
        rewrite Hfoc by (rewrite Eit; left; reflexivity).
        rewrite nodeEqb_refl. discriminate.
      * intros x [].
  - assert (Hin : In c (items (dom s))).
    { assert (H : In c (selectedItems (dom s))) by (rewrite Es; left; reflexivity).
      unfold selectedItems in H. apply filter_In in H. tauto. }
    rewrite (connected_checked s c Hc). cbn [fst snd dom].
    split; [reflexivity|]. split.
    + apply (wellFormed_same T (hostDom (dom s)));
        [apply sameLayout_select| |exact HWh].
      apply onlyItemsChecked_select; [apply HWh|left].
      rewrite items_hostDom. exact Hin.
    + apply rovingOk_select; [apply host_not_radio_hostDom|].
      rewrite items_hostDom. exact Hin.
Qed.

Lemma rovingOk_handle T s ev :
  wellFormed T (dom s) -> rovingOk (dom s) ->
  rovingOk (dom (exec (handle ev) s)).
Proof.
  intros HW HR. pose proof (wellFormed_no_throw T s ev HW) as Ho.
  pose proof (handled s ev) as H. rewrite Ho in H.
  remember (Normal tt) as o eqn:Eo.
  remember (exec (handle ev) s) as s' eqn:Es'.
  destruct H as [Hno|x Hsel Hx Hclick|k Hev Harrow|k Hev Harrow Hn];
    try discriminate Eo; cbn [dom].
  - exact HR.
  - destruct HR as (Hh & _). apply rovingOk_select; [exact Hh|].
    destruct Hx as [Hx|Hx]; [exact Hx|].
    rewrite Hx in Hsel. cbn [selects] in Hsel. congruence.
Qed.

Lemma rovingOk_run T evs : forall s,
  wellFormed T (dom s) -> rovingOk (dom s) ->
  wellFormed T (dom (run evs s)) /\ rovingOk (dom (run evs s)).
Proof.
  induction evs as [|ev evs IH]; intros s HW HR; simpl; [split; assumption|].
  apply IH; [apply wellFormed_handle, HW|apply (rovingOk_handle T), HR; exact HW].
Qed.

(** X14.  From attach on, the group is a tab stop.  Take a uniform group
    with at least one item in which only items carry [aria-checked="true"].
    [connectedCallback] completes normally, and after it and any sequence
    of key and click events: at most one item is selected, at least one
    item is focusable, every selected item is focusable, and the next event
    is handled without an exception. *)
Theorem attached_group_stays_focusable
    (s : State) (T : string) (evs : list Event) (ev : Event) :
  wellFormed T (dom s) ->
  let s' := run evs (exec connectedCallback s) in
  outcome connectedCallback s = Normal tt /\
  length (selectedItems (dom s')) <= 1 /\
  focusableItems (dom s') <> [] /\
  incl (selectedItems (dom s')) (focusableItems (dom s')) /\
  outcome (handle ev) s' = Normal tt.
Proof.
  intros HW s'. subst s'.
  destruct (wellFormed_attach T s HW) as (Ho & HW0 & HR0).
  destruct (rovingOk_run T evs _ HW0 HR0) as (HW' & _ & H1 & H2 & H3).
  split; [exact Ho|]. split; [exact H1|]. split; [exact H2|].
  split; [exact H3|]. exact (wellFormed_no_throw T _ ev HW').
Qed.

Lemma attached_group_stays_focusable_witness :
  wellFormed "dash-radio-button" (dom (initial labelled)) /\
  focusableItems
    (dom (run [KeyDown 13; Click [1]] (exec connectedCallback (initial labelled))))
  <> [].
Proof.
  assert (HW : wellFormed "dash-radio-button" (dom (initial labelled))).
  { split; [reflexivity|]. split; [|discriminate].
    intros p Hp H. simpl in Hp.
    destruct Hp as [<-|[<-|[<-|[<-|[<-|[]]]]]]; first [reflexivity|discriminate H]. }
  split; [exact HW|].
  exact (proj1 (proj2 (proj2
           (attached_group_stays_focusable (initial labelled)
              "dash-radio-button" [KeyDown 13; Click [1]] (KeyDown 40) HW)))).
Defined.

(* ================================================================== *)
(** ** The getters *)

(** X15.  What the getters return.  The getters complete normally and leave
    the state alone.  In a uniform group [firstRadioButton] is the first
    item in document order and [lastRadioButton] the last one, [null] when
    there is no item; when only items carry [aria-checked="true"],
    [checkedRadioButton] is the first selected item, [null] when none is
    selected. *)
Theorem getters_in_uniform_group (s : State) (T : string) :
  uniformGroup T (dom s) = true ->
  firstRadioButton s = (Normal (hd_error (items (dom s))), s) /\
  lastRadioButton s = (Normal (hd_error (rev (items (dom s)))), s) /\
  (onlyItemsChecked (dom s) ->
   checkedRadioButton s = (Normal (hd_error (selectedItems (dom s))), s)).
Proof.
  intros HU. unfold firstRadioButton, lastRadioButton, checkedRadioButton, gets.
  split; [|split].
  - rewrite (uniform_firstRadioButton T _ HU). reflexivity.
  - destruct (items (dom s)) as [|x l] eqn:Eit.
    + unfold querySelector. rewrite find_andb_filter.
      fold (querySelectorAll isRadio (dom s)). fold (items (dom s)).
      rewrite Eit. reflexivity.
    + destruct (exists_last (l := x :: l)) as (xs & lst & E); [discriminate|].
      rewrite E in Eit |- *.
      rewrite (uniform_lastRadioButton T _ xs lst HU Eit).
      rewrite rev_app_distr. reflexivity.
  - intros Honly. rewrite (checked_is_first_selected _ Honly). reflexivity.
Qed.

Lemma getters_in_uniform_group_witness :
  uniformGroup "dash-radio-button" (dom (initial lastChecked)) = true /\
  lastRadioButton (initial lastChecked) = (Normal (Some [3]), initial lastChecked).
Proof.
  assert (HU : uniformGroup "dash-radio-button" (dom (initial lastChecked))
               = true) by reflexivity.
  split; [exact HU|].
  exact (proj1 (proj2 (getters_in_uniform_group (initial lastChecked)
                         "dash-radio-button" HU))).
Defined.
